(** * CosmosSlide editor: pagination and PDF export engine

    A shallow embedding of the editor package of the repository
    ([packages/editor/src]): the page-delimiter splitter and per-page
    renderer ([utils/markdownParser.ts]), the layout stylesheet generator
    and the preview scale script ([utils/printStyles.ts]) and the PDF
    export hook ([usePdfExport]), followed by the properties the
    specification states about them.

    Conventions.
    - A JavaScript string is a sequence of UTF-16 code units: [text] is
      [list N].  Literals are written with [lit "..."].
    - A JavaScript number that holds a length in millimetres is an exact
      rational ([Q]); rounding of IEEE doubles is not modelled.
    - External libraries (markdown-it, html2canvas, jsPDF, the DOM) are
      either parameters of a section or modelled by the calls the code
      makes on them. *)

From Stdlib Require Import String Ascii.
From Stdlib Require Import List NArith QArith Qminmax Bool Arith Lia Sorted.
From Equations Require Import Equations.
From Equations.Prop Require Import Logic.
Import ListNotations.

Close Scope Q_scope.
Open Scope nat_scope.
Open Scope list_scope.

(* ===================================================================== *)
(** ** JavaScript strings *)
(* ===================================================================== *)

Module JsString.

Definition char := N.
Definition text := list char.

Fixpoint lit (s : string) : text :=
  match s with
  | EmptyString => []
  | String a s' => N_of_ascii a :: lit s'
  end.

Definition TAB : char := 9%N.
Definition LF : char := 10%N.
Definition VT : char := 11%N.
Definition FF : char := 12%N.
Definition CR : char := 13%N.
Definition SP : char := 32%N.
Definition NBSP : char := 160%N.
Definition LS : char := 8232%N.   (* U+2028 *)
Definition PS : char := 8233%N.   (* U+2029 *)
Definition ZWNBSP : char := 65279%N. (* U+FEFF *)

(** ECMAScript LineTerminator: the characters next to which [^] and [$]
    match under the [m] flag. *)
Definition isLineTerminator (c : char) : bool :=
  (c =? LF)%N || (c =? CR)%N || (c =? LS)%N || (c =? PS)%N.

(** ECMAScript WhiteSpace (TAB, VT, FF, ZWNBSP and the Unicode
    Space_Separator category). *)
Definition isWhiteSpace (c : char) : bool :=
  (c =? TAB)%N || (c =? VT)%N || (c =? FF)%N || (c =? SP)%N ||
  (c =? NBSP)%N || (c =? ZWNBSP)%N ||
  (c =? 5760)%N ||                          (* U+1680 *)
  ((8192 <=? c)%N && (c <=? 8202)%N) ||     (* U+2000 .. U+200A *)
  (c =? 8239)%N ||                          (* U+202F *)
  (c =? 8287)%N ||                          (* U+205F *)
  (c =? 12288)%N.                           (* U+3000 *)

(** What [String.prototype.trim] strips: WhiteSpace and LineTerminator. *)
Definition isTrimmable (c : char) : bool :=
  isWhiteSpace c || isLineTerminator c.

Fixpoint trimStart (s : text) : text :=
  match s with
  | [] => []
  | c :: s' => if isTrimmable c then trimStart s' else s
  end.

Definition trimEnd (s : text) : text := rev (trimStart (rev s)).

Definition trim (s : text) : text := trimEnd (trimStart s).

(** Whether a text has a character that [trim] keeps. *)
Definition has_content (s : text) : bool :=
  existsb (fun c => negb (isTrimmable c)) s.

(** [s.replace(/\r\n/g, '\n')]: every CR LF pair, scanning left to right,
    becomes a single LF. *)
Fixpoint replace_crlf (s : text) : text :=
  match s with
  | [] => []
  | c :: t =>
      match t with
      | d :: t' =>
          if ((c =? CR)%N && (d =? LF)%N)%bool
          then LF :: replace_crlf t'
          else c :: replace_crlf t
      | [] => [c]
      end
  end.

(** Matching a literal at the head of the input; the rest of the input
    is returned. *)
Fixpoint strip_prefix (p s : text) : option text :=
  match p with
  | [] => Some s
  | a :: p' =>
      match s with
      | [] => None
      | b :: s' => if (a =? b)%N then strip_prefix p' s' else None
      end
  end.

(** [Array.prototype.filter] with the index passed to the callback. *)
Fixpoint filter_from {A} (f : A -> nat -> bool) (i : nat) (l : list A) : list A :=
  match l with
  | [] => []
  | x :: l' => if f x i then x :: filter_from f (S i) l' else filter_from f (S i) l'
  end.

Definition filter_index {A} (f : A -> nat -> bool) (l : list A) : list A :=
  filter_from f 0 l.

(** [Array.prototype.map] with the index passed to the callback. *)
Fixpoint map_from {A B} (f : A -> nat -> B) (i : nat) (l : list A) : list B :=
  match l with
  | [] => []
  | x :: l' => f x i :: map_from f (S i) l'
  end.

Definition map_index {A B} (f : A -> nat -> B) (l : list A) : list B :=
  map_from f 0 l.

End JsString.

Import JsString.

(* ===================================================================== *)
(** ** The delimiter splitter ([utils/markdownParser.ts]) *)
(* ===================================================================== *)

Module MarkdownParser.

Definition PAGE_TOKEN : text := lit "---page---".

(** The position of a match attempt: the code unit before it (none at
    index 0) and the input from it on. *)
Definition line_start (prev : option char) : bool :=
  match prev with
  | None => true
  | Some c => isLineTerminator c
  end.

Definition line_end (rest : text) : bool :=
  match rest with
  | [] => true
  | c :: _ => isLineTerminator c
  end.

(** First alternative of the pattern, [^---page---$] under the [m] flag. *)
Definition match_token_line (prev : option char) (rest : text) : option (text * text) :=
  if line_start prev then
    match strip_prefix PAGE_TOKEN rest with
    | Some after => if line_end after then Some (PAGE_TOKEN, after) else None
    | None => None
    end
  else None.

(** Second alternative, [\f]. *)
Definition match_form_feed (rest : text) : option (text * text) :=
  match rest with
  | c :: after => if (c =? FF)%N then Some ([FF], after) else None
  | [] => None
  end.

(** [PAGE_DELIMITER_REGEX = /(?:^---page---$|\f)/gm] tried at one
    position: the matched text and the input after it.  The alternatives
    are tried in order. *)
Definition PAGE_DELIMITER_REGEX (prev : option char) (rest : text) : option (text * text) :=
  match match_token_line prev rest with
  | Some r => Some r
  | None => match_form_feed rest
  end.

(** The code unit before the position reached after consuming [m]. *)
Definition prev_after (m : text) (prev : option char) : option char :=
  match rev m with
  | c :: _ => Some c
  | [] => prev
  end.

(** [String.prototype.split] with a regular expression (ECMAScript
    RegExp.prototype[@@split]), for a pattern without capture groups and
    no limit: [prev] is the code unit before index [q], [cur] holds the
    code units from [p] to [q] in reverse, [rest] is the input from [q]
    on.  A match at [q] closes the segment and moves both [p] and [q]
    behind the match; otherwise [q] advances by one code unit.  The
    input left when [q] reaches the end is the last segment. *)
Equations? split_loop (prev : option char) (cur : text) (rest : text) : list text
  by wf (length rest) lt :=
  split_loop prev cur [] := [rev cur];
  split_loop prev cur (c :: rest')
    with inspect (PAGE_DELIMITER_REGEX prev (c :: rest')) := {
    | exist _ (Some (m, after)) _ :=
        rev cur :: split_loop (prev_after m prev) [] after;
    | exist _ None _ :=
        split_loop (Some c) (c :: cur) rest' }.
Proof.
  assert (Hs : forall p s a, strip_prefix p s = Some a ->
                               length s = length p + length a).
    { induction p as [|x p IH]; intros s a H; simpl in H.
      - now inversion H.
      - destruct s as [|y s]; [discriminate|].
        destruct (x =? y)%N; [|discriminate].
        simpl. now rewrite (IH _ _ H). }
    unfold PAGE_DELIMITER_REGEX, match_token_line, match_form_feed in e.
    destruct (line_start prev);
      [destruct (strip_prefix PAGE_TOKEN (c :: rest')) as [a|] eqn:E;
       [destruct (line_end a)|]|];
      try (destruct (c =? FF)%N; inversion e; subst; simpl; lia).
    inversion e; subst. apply Hs in E. simpl in *. lia.
Qed.

Definition split_regex (s : text) : list text := split_loop None [] s.

Definition splitByPageDelimiters (markdown : text) : list text :=
  let normalized := replace_crlf markdown in
  let pages := split_regex normalized in
  let filteredPages :=
    filter_index
      (fun page index =>
         if Nat.eqb index 0 then true else 0 <? length (trim page))
      pages in
  if 0 <? length filteredPages then filteredPages else [[]].

(** What the pattern describes, as a condition on a text [pre ++ d ++ post]:
    [d] is a form feed, or [d] is the token with the start of a line
    before it and the end of a line after it; [before] is the code unit
    that precedes [d]. *)
Definition delimiter_at (before : option char) (d post : text) : Prop :=
  d = [FF] \/
  (d = PAGE_TOKEN /\ line_start before = true /\ line_end post = true).

(** A text the pattern does not match anywhere, scanned after [prev]. *)
Definition unmatched (prev : option char) (s : text) : Prop :=
  forall x y, s = x ++ y -> y <> [] ->
              PAGE_DELIMITER_REGEX (prev_after x prev) y = None.

(** [a] ends [s]; [b] starts [s]. *)
Definition ends_with (s a : text) : Prop := exists x, s = x ++ a.
Definition starts_with (s b : text) : Prop := exists y, s = b ++ y.

(** [ParsedPage] of [types/index.ts]. *)
Record ParsedPage := {
  index : nat;
  markdown : text;
  html : text
}.

Section Renderer.

(** [md.render] of the markdown-it instance [md], configured with
    [html], [linkify] and [typographer] on and [breaks] off: an external
    library, taken as a function from markdown to HTML. *)
Variable md_render : text -> text.

Definition markdownToHtml (markdown : text) : text := md_render markdown.

Definition parseMarkdownToPages (markdown : text) : list ParsedPage :=
  let pageContents := splitByPageDelimiters markdown in
  map_index
    (fun content index =>
       {| index := index; markdown := content; html := markdownToHtml content |})
    pageContents.

End Renderer.

End MarkdownParser.

Import MarkdownParser.

(* ===================================================================== *)
(** ** The layout stylesheet and the scale script ([utils/printStyles.ts]) *)
(* ===================================================================== *)

Module PrintStyles.

Local Open Scope string_scope.

(** [PageSize] of [types/index.ts]; all three in millimetres. *)
Record PageSize := {
  width : Q;
  height : Q;
  margin : Q
}.

(** The value of a declaration.  The template literal interpolates numbers
    in four shapes; everything else is fixed text. *)
Inductive css_value :=
| Lit (s : string)                    (* fixed text *)
| Mm (q : Q)                          (* [${q}mm] *)
| MmPair (a b : Q)                    (* [${a}mm ${b}mm] *)
| CalcMmTimes (q : Q) (factor : string). (* [calc(${q}mm * factor)] *)

Definition declaration := (string * css_value)%type.

Record rule := {
  selector : string;
  declarations : list declaration
}.

Inductive block :=
| Plain (r : rule)
| AtPage (ds : list declaration)
| Media (query : string) (rs : list rule).

Definition stylesheet := list block.

Definition generatePrintStyles (pageSize : PageSize) : stylesheet :=
  let width := width pageSize in
  let height := height pageSize in
  let margin := margin pageSize in
  let contentWidth := (width - margin * 2)%Q in
  let contentHeight := (height - margin * 2)%Q in
  [ (* Reset and base styles *)
    Plain {| selector := "*, *::before, *::after";
             declarations := [("box-sizing", Lit "border-box")] |};
    Plain {| selector := "html, body";
             declarations :=
               [("margin", Lit "0"); ("padding", Lit "0");
                ("font-family", Lit "-apple-system, BlinkMacSystemFont, 'Segoe UI', Roboto, 'Helvetica Neue', Arial, sans-serif");
                ("font-size", Lit "12pt"); ("line-height", Lit "1.6");
                ("color", Lit "#000"); ("background", Lit "#fff")] |};
    (* Page container styles *)
    Plain {| selector := ".page";
             declarations :=
               [("width", Mm contentWidth);
                ("min-height", Mm contentHeight);
                ("padding", Mm margin);
                ("margin", Lit "0 auto 20px auto");
                ("background", Lit "#fff");
                ("box-shadow", Lit "0 2px 8px rgba(0, 0, 0, 0.1)");
                ("overflow", Lit "hidden");
                ("page-break-after", Lit "always");
                ("break-after", Lit "page");
                ("page-break-inside", Lit "avoid");
                ("break-inside", Lit "avoid")] |};
    Plain {| selector := ".page.last-page";
             declarations :=
               [("page-break-after", Lit "auto"); ("break-after", Lit "auto")] |};
    (* Typography *)
    Plain {| selector := "h1, h2, h3, h4, h5, h6";
             declarations :=
               [("margin-top", Lit "0"); ("margin-bottom", Lit "0.5em");
                ("font-weight", Lit "600"); ("line-height", Lit "1.3")] |};
    Plain {| selector := "h1"; declarations := [("font-size", Lit "2em")] |};
    Plain {| selector := "h2"; declarations := [("font-size", Lit "1.5em")] |};
    Plain {| selector := "h3"; declarations := [("font-size", Lit "1.25em")] |};
    Plain {| selector := "h4"; declarations := [("font-size", Lit "1em")] |};
    Plain {| selector := "h5"; declarations := [("font-size", Lit "0.875em")] |};
    Plain {| selector := "h6"; declarations := [("font-size", Lit "0.75em")] |};
    Plain {| selector := "p"; declarations := [("margin", Lit "0 0 1em 0")] |};
    (* Lists *)
    Plain {| selector := "ul, ol";
             declarations := [("margin", Lit "0 0 1em 0"); ("padding-left", Lit "2em")] |};
    Plain {| selector := "li"; declarations := [("margin-bottom", Lit "0.25em")] |};
    (* Code blocks *)
    Plain {| selector := "pre";
             declarations :=
               [("background", Lit "#f5f5f5"); ("padding", Lit "1em");
                ("border-radius", Lit "4px"); ("overflow-x", Lit "auto");
                ("margin", Lit "0 0 1em 0")] |};
    Plain {| selector := "code";
             declarations :=
               [("font-family", Lit "'SFMono-Regular', Consolas, 'Liberation Mono', Menlo, monospace");
                ("font-size", Lit "0.9em"); ("background", Lit "#f5f5f5");
                ("padding", Lit "0.2em 0.4em"); ("border-radius", Lit "3px")] |};
    Plain {| selector := "pre code";
             declarations := [("padding", Lit "0"); ("background", Lit "none")] |};
    (* Blockquotes *)
    Plain {| selector := "blockquote";
             declarations :=
               [("margin", Lit "0 0 1em 0"); ("padding", Lit "0.5em 1em");
                ("border-left", Lit "4px solid #ddd"); ("color", Lit "#666")] |};
    (* Tables *)
    Plain {| selector := "table";
             declarations :=
               [("width", Lit "100%"); ("border-collapse", Lit "collapse");
                ("margin", Lit "0 0 1em 0")] |};
    Plain {| selector := "th, td";
             declarations :=
               [("padding", Lit "0.5em"); ("border", Lit "1px solid #ddd");
                ("text-align", Lit "left")] |};
    Plain {| selector := "th";
             declarations := [("background", Lit "#f5f5f5"); ("font-weight", Lit "600")] |};
    (* Horizontal rule *)
    Plain {| selector := "hr";
             declarations :=
               [("border", Lit "none"); ("border-top", Lit "1px solid #ddd");
                ("margin", Lit "1.5em 0")] |};
    (* Links *)
    Plain {| selector := "a";
             declarations := [("color", Lit "#0066cc"); ("text-decoration", Lit "none")] |};
    Plain {| selector := "a:hover";
             declarations := [("text-decoration", Lit "underline")] |};
    (* Images *)
    Plain {| selector := "img";
             declarations := [("max-width", Lit "100%"); ("height", Lit "auto")] |};
    (* @page rule for PDF export *)
    AtPage [("size", MmPair width height); ("margin", Lit "0")];
    (* Print-specific styles *)
    Media "print"
      [ {| selector := "html, body";
           declarations :=
             [("width", Mm width); ("height", Mm height);
              ("margin", Lit "0"); ("padding", Lit "0")] |};
        {| selector := "body";
           declarations :=
             [("-webkit-print-color-adjust", Lit "exact");
              ("print-color-adjust", Lit "exact");
              ("color-adjust", Lit "exact")] |};
        {| selector := ".page";
           declarations :=
             [("width", Mm width);
              ("height", Mm height);
              ("min-height", Mm height);
              ("max-height", Mm height);
              ("padding", Mm margin);
              ("margin", Lit "0");
              ("box-shadow", Lit "none");
              ("page-break-after", Lit "always");
              ("break-after", Lit "page");
              ("page-break-inside", Lit "avoid");
              ("break-inside", Lit "avoid")] |};
        {| selector := ".page.last-page";
           declarations :=
             [("page-break-after", Lit "auto"); ("break-after", Lit "auto")] |};
        (* Prevent orphaned headers *)
        {| selector := "h1, h2, h3, h4, h5, h6";
           declarations :=
             [("page-break-after", Lit "avoid"); ("break-after", Lit "avoid")] |};
        (* Keep images with their captions *)
        {| selector := "img, figure";
           declarations :=
             [("page-break-inside", Lit "avoid"); ("break-inside", Lit "avoid")] |} ];
    (* Preview-specific styles (non-print) *)
    Media "screen"
      [ {| selector := ":root";
           declarations :=
             [("--preview-scale", Lit "0.5");
              ("--page-width-px", CalcMmTimes width "3.7795275591");
              ("--page-height-px", CalcMmTimes height "3.7795275591")] |};
        {| selector := "body";
           declarations :=
             [("background", Lit "#e5e5e5"); ("padding", Lit "20px");
              ("display", Lit "flex"); ("flex-direction", Lit "column");
              ("align-items", Lit "center"); ("gap", Lit "20px");
              ("min-height", Lit "100vh")] |};
        (* Wrapper maintains scaled dimensions for proper spacing *)
        {| selector := ".page-wrapper";
           declarations :=
             [("width", CalcMmTimes width "var(--preview-scale)");
              ("height", CalcMmTimes height "var(--preview-scale)");
              ("position", Lit "relative"); ("flex-shrink", Lit "0")] |};
        {| selector := ".page";
           declarations :=
             [(* Use full page dimensions in preview *)
              ("width", Mm width);
              ("height", Mm height);
              ("min-height", Mm height);
              ("padding", Mm margin);
              ("margin", Lit "0");
              (* Scale to fit viewport using JS-calculated scale *)
              ("transform", Lit "scale(var(--preview-scale))");
              ("transform-origin", Lit "top left");
              (* Visual page indicator in preview *)
              ("position", Lit "absolute");
              ("top", Lit "0");
              ("left", Lit "0")] |};
        {| selector := ".page::before";
           declarations :=
             [("content", Lit "'Page ' attr(data-page)");
              ("position", Lit "absolute"); ("top", Lit "8px");
              ("right", Lit "12px"); ("font-size", Lit "10px");
              ("color", Lit "#999"); ("font-family", Lit "sans-serif")] |} ];
    (* Print: Remove wrapper styling *)
    Media "print"
      [ {| selector := ".page-wrapper";
           declarations := [("display", Lit "contents")] |} ]
  ].

(** The script embedded by [generateIframeDocument]: [updateScale] with
    [window.innerWidth] as its input and the value it stores in
    [--preview-scale] as its result. *)
Definition MM_TO_PX : Q := (37795275591 # 10000000000)%Q. (* 3.7795275591, 96 DPI *)

Definition updateScale (PAGE_WIDTH_MM : Q) (innerWidth : Q) : Q :=
  let viewportWidth := (innerWidth - 40)%Q in          (* padding *)
  let pageWidthPx := (PAGE_WIDTH_MM * MM_TO_PX)%Q in
  (* Scale to fit width only *)
  let scale := Qmin (viewportWidth / pageWidthPx) 1 in
  scale.

(** The document assembled for the iframe: the stylesheet, the body
    content and the scale script with its interpolated page width. *)
Record IframeDocument := {
  doc_styles : stylesheet;
  doc_content : text;
  doc_PAGE_WIDTH_MM : Q
}.

Definition generateIframeDocument (content : text) (pageSize : PageSize) : IframeDocument :=
  let styles := generatePrintStyles pageSize in
  let width := width pageSize in
  {| doc_styles := styles; doc_content := content; doc_PAGE_WIDTH_MM := width |}.

(** The value [--preview-scale] holds after the script of a document ran
    in a window of the given inner width. *)
Definition preview_scale (doc : IframeDocument) (innerWidth : Q) : Q :=
  updateScale (doc_PAGE_WIDTH_MM doc) innerWidth.

(** *** Reading the stylesheet: the CSS box model *)

(** The rule sets for a selector together with the media context they
    are in ([None] for rules outside any [@media] block). *)
Definition rules_of_block (b : block) : list (option string * rule) :=
  match b with
  | Plain r => [(None, r)]
  | AtPage _ => []
  | Media q rs => map (fun r => (Some q, r)) rs
  end.

Definition rule_sets (sel : string) (sheet : stylesheet) : list (option string * rule) :=
  filter (fun cr => String.eqb (selector (snd cr)) sel)
         (flat_map rules_of_block sheet).

Fixpoint declared (prop : string) (ds : list declaration) : option css_value :=
  match ds with
  | [] => None
  | (p, v) :: ds' => if String.eqb p prop then Some v else declared prop ds'
  end.

Definition declared_mm (prop : string) (r : rule) : option Q :=
  match declared prop (declarations r) with
  | Some (Mm q) => Some q
  | _ => None
  end.

(** Whether every element is sized by its border box: the universal
    selector rule of the sheet. *)
Definition border_box_sizing (sheet : stylesheet) : bool :=
  existsb (fun cr =>
             match declared "box-sizing" (declarations (snd cr)) with
             | Some (Lit v) => String.eqb v "border-box"
             | _ => false
             end)
          (rule_sets "*, *::before, *::after" sheet).

(** Under border-box sizing, [width] and [height] are the outer
    (border-box) lengths and the content box is what the padding leaves. *)
Definition outer_width (r : rule) : option Q := declared_mm "width" r.
Definition outer_height (r : rule) : option Q := declared_mm "height" r.
Definition padding_mm (r : rule) : option Q := declared_mm "padding" r.

Definition content_width (r : rule) : option Q :=
  match outer_width r, padding_mm r with
  | Some w, Some p => Some (w - 2 * p)%Q
  | _, _ => None
  end.

Definition content_height (r : rule) : option Q :=
  match outer_height r, padding_mm r with
  | Some h, Some p => Some (h - 2 * p)%Q
  | _, _ => None
  end.

(** The data-model invariant of a page size. *)
Definition valid_PageSize (ps : PageSize) : Prop :=
  (0 < width ps)%Q /\ (0 < height ps)%Q /\ (0 <= margin ps)%Q /\
  (margin ps * 2 < Qmin (width ps) (height ps))%Q.

(** A rule set gives the page element the full physical page as its outer
    box, with the margin as padding. *)
Definition full_page_box (ps : PageSize) (r : rule) : Prop :=
  outer_width r = Some (width ps) /\
  outer_height r = Some (height ps) /\
  padding_mm r = Some (margin ps).

End PrintStyles.

Import PrintStyles.

(* ===================================================================== *)
(** ** The PDF export hook ([usePdfExport]) *)
(* ===================================================================== *)

Module PdfExport.

(** A value thrown by JavaScript code: an [Error] with its message, or
    any other value. *)
Inductive thrown :=
| ErrorObject (message : string)
| OtherValue (shown : string).

(** How an evaluation, or an awaited promise, ends. *)
Inductive completion (A : Type) :=
| Normal (a : A)
| Throw (e : thrown).

Arguments Normal {A} a.
Arguments Throw {A} e.

(** *** jsPDF, by the calls made on the document *)

Inductive Orientation := portrait | landscape.

Inductive PdfCall :=
| addPage (format : Q * Q)
| addImage (imageData : string) (imageFormat : string) (x y w h : Q).

Record jsPDF := {
  orientation : Orientation;
  pdf_unit : string;
  format : Q * Q;
  calls : list PdfCall        (* in the order they were made *)
}.

Definition new_jsPDF (o : Orientation) (u : string) (f : Q * Q) : jsPDF :=
  {| orientation := o; pdf_unit := u; format := f; calls := [] |}.

Definition call (c : PdfCall) (pdf : jsPDF) : jsPDF :=
  {| orientation := orientation pdf; pdf_unit := pdf_unit pdf; format := format pdf;
     calls := (calls pdf ++ [c])%list |}.

(** What the calls build, as the library documents them: the constructor
    opens a first page of the given format, [addPage] appends a page and
    makes it the current one, [addImage] places an image on the current
    page. *)
Record PlacedImage := {
  image_data : string;
  image_format : string;
  image_x : Q;
  image_y : Q;
  image_w : Q;
  image_h : Q
}.

Record PdfPage := {
  page_format : Q * Q;
  page_images : list PlacedImage
}.

Definition blank_page (f : Q * Q) : PdfPage :=
  {| page_format := f; page_images := [] |}.

Fixpoint on_last_page (img : PlacedImage) (pages : list PdfPage) : list PdfPage :=
  match pages with
  | [] => []
  | [p] => [{| page_format := page_format p;
               page_images := (page_images p ++ [img])%list |}]
  | p :: ps => p :: on_last_page img ps
  end.

Definition apply_call (pages : list PdfPage) (c : PdfCall) : list PdfPage :=
  match c with
  | addPage f => (pages ++ [blank_page f])%list
  | addImage d fmt x y w h =>
      on_last_page {| image_data := d; image_format := fmt;
                      image_x := x; image_y := y; image_w := w; image_h := h |}
                   pages
  end.

Definition pdf_pages (pdf : jsPDF) : list PdfPage :=
  fold_left apply_call (calls pdf) [blank_page (format pdf)].

(** [pdf.output('blob')]: the serialized document, kept as the document. *)
Inductive Blob := PdfBlob (pdf : jsPDF).

(** *** The hook *)

Record PdfExportOptions := {
  filename : option string;
  pageSize : PageSize
}.

Record Html2CanvasOptions := {
  scale : Q;
  useCORS : bool;
  logging : bool;
  backgroundColor : string
}.

(** The state of the hook: [isExporting] and [error]. *)
Record HookState := {
  isExporting : bool;
  error : option string
}.

Definition initial : HookState := {| isExporting := false; error := None |}.

Definition setIsExporting (b : bool) (st : HookState) : HookState :=
  {| isExporting := b; error := error st |}.

Definition setError (e : option string) (st : HookState) : HookState :=
  {| isExporting := isExporting st; error := e |}.

(** The states a settled export leaves. *)
Definition failed (msg : string) : HookState :=
  {| isExporting := false; error := Some msg |}.

Definition succeeded : HookState :=
  {| isExporting := false; error := None |}.

(** [width > height] on numbers. *)
Definition Qgtb (a b : Q) : bool := negb (Qle_bool a b).

Section Hook.

(** Handles of the page elements in the iframe and the canvases
    html2canvas returns. *)
Context {Element Canvas : Type}.

(** The part of the DOM the hook reads.  [pageElements] is what
    [body.querySelectorAll('.page')] returns, in document order. *)
Record Body := { pageElements : list Element }.
Record Document := { body : option Body }.

(** The window of the frame.  A window of the embedding page's origin
    hands out its [document] and its [print]; on a window of another
    origin (the frame was navigated away), reading either property
    throws the browser's [SecurityError]: neither is among the few
    properties that may be read across origins. *)
Inductive Window :=
| SameOrigin (document : option Document)
| CrossOrigin (blocked : thrown).

Record HTMLIFrameElement := { contentWindow : option Window }.

(** The libraries: the two dynamic imports awaited together,
    [html2canvas(page, options)] awaited, [canvas.toDataURL(type)]. *)
Record World := {
  import_modules : completion unit;
  html2canvas : Element -> Html2CanvasOptions -> completion Canvas;
  toDataURL : Canvas -> string -> string
}.

(** The arguments of [usePdfExport]. *)
Record HookArgs := {
  iframeRef : option HTMLIFrameElement;   (* iframeRef.current *)
  options : PdfExportOptions;
  onExport : option (Blob -> string -> completion unit)
}.

(** [iframe?.contentWindow?.document?.body]: each [?.] stops the chain
    at [null] or [undefined]; a property read that throws is not
    stopped. *)
Definition iframe_body (current : option HTMLIFrameElement)
  : completion (option Body) :=
  match current with
  | None => Normal None
  | Some iframe =>
      match contentWindow iframe with
      | None => Normal None
      | Some (CrossOrigin blocked) => Throw blocked
      | Some (SameOrigin None) => Normal None
      | Some (SameOrigin (Some doc)) => Normal (body doc)
      end
  end.

(** **** Sequential embedding: state passing with exceptions *)

Definition M (A : Type) : Type := HookState -> completion A * HookState.

Definition ret {A} (a : A) : M A := fun st => (Normal a, st).

Definition bind {A B} (m : M A) (k : A -> M B) : M B :=
  fun st =>
    match m st with
    | (Normal a, st') => k a st'
    | (Throw e, st') => (Throw e, st')
    end.

Definition throw {A} (e : thrown) : M A := fun st => (Throw e, st).

(** [await p] for a promise that settles as [c]. *)
Definition await {A} (c : completion A) : M A := fun st => (c, st).

Definition set (f : HookState -> HookState) : M unit :=
  fun st => (Normal tt, f st).

Definition try_catch {A} (m : M A) (handler : thrown -> M A) : M A :=
  fun st =>
    match m st with
    | (Normal a, st') => (Normal a, st')
    | (Throw e, st') => handler e st'
    end.

Notation "x <- m ;; k" := (bind m (fun x => k))
  (at level 61, m at next level, right associativity).
Notation "m ;;; k" := (bind m (fun _ => k))
  (at level 61, right associativity).

Definition html2canvas_options : Html2CanvasOptions :=
  {| scale := 2; (* Higher resolution *)
     useCORS := true;
     logging := false;
     backgroundColor := "#ffffff" |}.

(** The body of the [for] loop, after the canvas arrived. *)
Definition embed (width height : Q) (i : nat) (imgData : string) (pdf : jsPDF) : jsPDF :=
  (* Add new page (except for the first one) *)
  let pdf := if 0 <? i then call (addPage (width, height)) pdf else pdf in
  (* Add image to PDF *)
  call (addImage imgData "PNG" 0 0 width height) pdf.

(** [for (let i = 0; i < pages.length; i++)], from index [i] on, where
    [pages] holds the elements from that index. *)
Fixpoint render_pages (W : World) (width height : Q)
         (pages : list Element) (i : nat) (pdf : jsPDF) : M jsPDF :=
  match pages with
  | [] => ret pdf
  | page :: rest =>
      (* Capture page as canvas *)
      canvas <- await (html2canvas W page html2canvas_options) ;;
      let imgData := toDataURL W canvas "image/png" in
      render_pages W width height rest (S i) (embed width height i imgData pdf)
  end.

Definition export_filename (opts : PdfExportOptions) : string :=
  let name :=
    match filename opts with
    | Some f => if String.eqb f "" then "document"%string else f
    | None => "document"%string
    end in
  (name ++ ".pdf")%string.

(** The [try] block. *)
Definition try_block (W : World) (A : HookArgs) (bd : Body) : M Blob :=
  (* Dynamically import libraries to reduce initial bundle size *)
  await (import_modules W) ;;;
  (* Find all page elements in the iframe *)
  let pages := pageElements bd in
  (if length pages =? 0
   then throw (ErrorObject "No pages found in document")
   else ret tt) ;;;
  let width := width (pageSize (options A)) in
  let height := height (pageSize (options A)) in
  (* Create PDF with custom page size (dimensions in mm) *)
  let pdf := new_jsPDF (if Qgtb width height then landscape else portrait)
                       "mm" (width, height) in
  (* Render each page *)
  pdf <- render_pages W width height pages 0 pdf ;;
  (* Generate blob *)
  let blob := PdfBlob pdf in
  let filename := export_filename (options A) in
  (* Call the onExport callback if provided *)
  match onExport A with
  | Some callback => await (callback blob filename)
  | None => ret tt
  end ;;;
  set (setIsExporting false) ;;;
  ret blob.

(** The [catch] block. *)
Definition catch_block (err : thrown) : M (option Blob) :=
  let message :=
    match err with
    | ErrorObject m => m
    | OtherValue _ => "Failed to export PDF"%string
    end in
  set (setError (Some message)) ;;;
  set (setIsExporting false) ;;;
  ret None.

(** [exportPdf]: how the returned promise settles and the hook state it
    leaves. *)
Definition exportPdf (W : World) (A : HookArgs) : M (option Blob) :=
  match iframe_body (iframeRef A) with
  | Throw blocked =>
      (* the guard stands before the [try]: the promise is rejected *)
      throw blocked
  | Normal None =>
      set (setError (Some "Cannot access iframe content"%string)) ;;;
      ret None
  | Normal (Some bd) =>
      set (setIsExporting true) ;;;
      set (setError None) ;;;
      try_catch
        (blob <- try_block W A bd ;; ret (Some blob))
        catch_block
  end.

(** **** The same function as a coroutine

    [exportPdf] is an [async] function: it runs until an [await], and
    is resumed when the awaited promise settles.  Other code, another
    invocation included, runs in between. *)

Inductive Suspended :=
| AwaitImports (bd : Body)
| AwaitCanvas (page : Element) (rest : list Element) (i : nat) (pdf : jsPDF)
| AwaitOnExport (blob : Blob)
| Settled (r : completion (option Blob)).

(** The calls on shared resources that the interleaving is about. *)
Inductive Event :=
| Rasterize (page : Element)           (* html2canvas called on a page element *)
| Callback (blob : Blob) (name : string).

Definition Step : Type := (Suspended * HookState * list Event)%type.

Definition caught (err : thrown) (st : HookState) (evs : list Event) : Step :=
  let (r, st') := catch_block err st in
  (Settled r, st', evs).

Definition finish (blob : Blob) (st : HookState) : Step :=
  (Settled (Normal (Some blob)), setIsExporting false st, []).

Definition after_loop (A : HookArgs) (pdf : jsPDF) (st : HookState) : Step :=
  let blob := PdfBlob pdf in
  let filename := export_filename (options A) in
  match onExport A with
  | Some _ => (AwaitOnExport blob, st, [Callback blob filename])
  | None => finish blob st
  end.

Definition loop_head (A : HookArgs) (pages : list Element) (i : nat)
           (pdf : jsPDF) (st : HookState) : Step :=
  match pages with
  | [] => after_loop A pdf st
  | page :: rest => (AwaitCanvas page rest i pdf, st, [Rasterize page])
  end.

(** The synchronous start of an invocation, up to the first [await]. *)
Definition start (A : HookArgs) (st : HookState) : Step :=
  match iframe_body (iframeRef A) with
  | Throw blocked => (Settled (Throw blocked), st, [])
  | Normal None =>
      (Settled (Normal None),
       setError (Some "Cannot access iframe content"%string) st, [])
  | Normal (Some bd) =>
      (AwaitImports bd, setError None (setIsExporting true st), [])
  end.

(** Resuming a suspended invocation with the outcome of what it awaits. *)
Definition resume (W : World) (A : HookArgs) (k : Suspended) (st : HookState) : Step :=
  let width := width (pageSize (options A)) in
  let height := height (pageSize (options A)) in
  match k with
  | AwaitImports bd =>
      match import_modules W with
      | Throw e => caught e st []
      | Normal _ =>
          let pages := pageElements bd in
          if length pages =? 0
          then caught (ErrorObject "No pages found in document") st []
          else loop_head A pages 0
                 (new_jsPDF (if Qgtb width height then landscape else portrait)
                            "mm" (width, height)) st
      end
  | AwaitCanvas page rest i pdf =>
      match html2canvas W page html2canvas_options with
      | Throw e => caught e st []
      | Normal canvas =>
          let imgData := toDataURL W canvas "image/png" in
          loop_head A rest (S i) (embed width height i imgData pdf) st
      end
  | AwaitOnExport blob =>
      match onExport A with
      | Some callback =>
          match callback blob (export_filename (options A)) with
          | Throw e => caught e st []
          | Normal _ => finish blob st
          end
      | None => finish blob st
      end
  | Settled r => (Settled r, st, [])
  end.

(** One invocation resumed until it settles; [fuel] bounds the number
    of resumptions. *)
Fixpoint run_alone (W : World) (A : HookArgs) (fuel : nat)
         (k : Suspended) (st : HookState) : Suspended * HookState :=
  match k, fuel with
  | Settled _, _ => (k, st)
  | _, O => (k, st)
  | _, S fuel' =>
      let '(k', st', _) := resume W A k st in
      run_alone W A fuel' k' st'
  end.

Definition run_step (W : World) (A : HookArgs) (fuel : nat) (s : Step)
  : Suspended * HookState :=
  run_alone W A fuel (fst (fst s)) (snd (fst s)).

(** Several invocations on one hook.  Invocation [id] is the [id]-th
    element of [tasks]; the log tags each event with its invocation. *)
Record System := {
  hook : HookState;
  tasks : list Suspended;
  log : list (nat * Event)
}.

Definition idle : System := {| hook := initial; tasks := []; log := [] |}.

Inductive Action :=
| Invoke                (* the caller calls exportPdf *)
| Resume (id : nat).    (* the promise invocation [id] awaits settles *)

Fixpoint replace_nth {X} (n : nat) (x : X) (l : list X) : list X :=
  match l, n with
  | [], _ => []
  | _ :: l', O => x :: l'
  | y :: l', S n' => y :: replace_nth n' x l'
  end.

Definition act (W : World) (A : HookArgs) (sys : System) (a : Action) : System :=
  match a with
  | Invoke =>
      let id := length (tasks sys) in
      let '(k, st, evs) := start A (hook sys) in
      {| hook := st;
         tasks := (tasks sys ++ [k])%list;
         log := (log sys ++ map (fun e => (id, e)) evs)%list |}
  | Resume id =>
      match nth_error (tasks sys) id with
      | None => sys
      | Some k =>
          let '(k', st, evs) := resume W A k (hook sys) in
          {| hook := st;
             tasks := replace_nth id k' (tasks sys);
             log := (log sys ++ map (fun e => (id, e)) evs)%list |}
      end
  end.

Definition schedule (W : World) (A : HookArgs) (acts : list Action) : System :=
  fold_left (act W A) acts idle.

(** The invocations whose rasterization passes the log shows, in the
    order of the calls. *)
Definition rasterizations (l : list (nat * Event)) : list nat :=
  flat_map (fun ie => match snd ie with
                      | Rasterize _ => [fst ie]
                      | Callback _ _ => []
                      end) l.

(** **** Notions the properties are stated with *)

(** The data URL of the capture of a page element, when html2canvas
    succeeds on it. *)
Definition capture (W : World) (page : Element) : option string :=
  match html2canvas W page html2canvas_options with
  | Normal canvas => Some (toDataURL W canvas "image/png")
  | Throw _ => None
  end.

(** The captures embedded one after the other, from index [i] on. *)
Fixpoint embed_all (width height : Q) (i : nat) (images : list string)
         (pdf : jsPDF) : jsPDF :=
  match images with
  | [] => pdf
  | d :: ds => embed_all width height (S i) ds (embed width height i d pdf)
  end.

(** The document the [try] block builds from the captures of all
    pages. *)
Definition built_pdf (A : HookArgs) (images : list string) : jsPDF :=
  let width := width (pageSize (options A)) in
  let height := height (pageSize (options A)) in
  embed_all width height 0 images
    (new_jsPDF (if Qgtb width height then landscape else portrait)
               "mm" (width, height)).

(** The message the [catch] block reports for a thrown value. *)
Definition reported (err : thrown) : string :=
  match err with
  | ErrorObject m => m
  | OtherValue _ => "Failed to export PDF"%string
  end.

Definition settled (k : Suspended) : bool :=
  match k with
  | Settled _ => true
  | _ => false
  end.

(** A caller that heeds the flag invokes [exportPdf] only while
    [isExporting] is false. *)
Fixpoint heeds_flag (W : World) (A : HookArgs) (sys : System)
         (acts : list Action) : Prop :=
  match acts with
  | [] => True
  | a :: acts' =>
      match a with
      | Invoke => isExporting (hook sys) = false
      | Resume _ => True
      end /\ heeds_flag W A (act W A sys a) acts'
  end.

(** The rasterization passes are serialized when the calls of one
    invocation all come before those of the next. *)
Definition serialized (ids : list nat) : Prop := StronglySorted le ids.

(** At most the latest invocation is in flight, and then the flag is
    up; the passes logged so far are serialized. *)
Definition one_in_flight (sys : System) : Prop :=
  (isExporting (hook sys) = false ->
   Forall (fun k => settled k = true) (tasks sys)) /\
  (forall i k, nth_error (tasks sys) i = Some k ->
               S i < length (tasks sys) -> settled k = true) /\
  serialized (rasterizations (log sys)) /\
  Forall (fun i => i < length (tasks sys)) (rasterizations (log sys)).

End Hook.

(** One output page per capture: a page of the configured size holding
    the capture over its whole box. *)
Definition full_bleed_page (width height : Q) (imgData : string) : PdfPage :=
  {| page_format := (width, height);
     page_images :=
       [{| image_data := imgData; image_format := "PNG";
           image_x := 0; image_y := 0;
           image_w := width; image_h := height |}] |}.

(** The calls the specification describes: the first capture is embedded
    on the page the constructor opened, every later one after a new page
    of the same size. *)
Definition expected_calls (width height : Q) (images : list string) : list PdfCall :=
  match images with
  | [] => []
  | d :: ds =>
      addImage d "PNG" 0 0 width height ::
      flat_map (fun d' => [addPage (width, height);
                           addImage d' "PNG" 0 0 width height]) ds
  end.


End PdfExport.

Import PdfExport.

(* ===================================================================== *)
(** ** A small rendered document, for concrete runs *)
(* ===================================================================== *)

Module Demo.

(** Page elements and canvases are numbered; the capture of page [n] is
    canvas [n]. *)
Definition iframe_with (pages : list nat) : option (@HTMLIFrameElement nat) :=
  Some {| contentWindow :=
            Some (SameOrigin
                    (Some {| body := Some {| pageElements := pages |} |})) |}.

Definition png (canvas : nat) (type : string) : string :=
  String (ascii_of_nat (65 + canvas)) ".png".

Definition world : @World nat nat :=
  {| import_modules := Normal tt;
     html2canvas := fun page _ => Normal page;
     toDataURL := png |}.

(** A world in which page [1] cannot be captured. *)
Definition world_tainted : @World nat nat :=
  {| import_modules := Normal tt;
     html2canvas := fun page _ =>
                      if Nat.eqb page 1
                      then Throw (ErrorObject "Tainted canvas")
                      else Normal page;
     toDataURL := png |}.

Definition slide : PageSize := {| width := 254; height := 143; margin := 10 |}.

Definition export_options : PdfExportOptions :=
  {| filename := Some "slides"%string; pageSize := slide |}.

(** Two pages, no callback. *)
Definition args : @HookArgs nat :=
  {| iframeRef := iframe_with [0; 1];
     options := export_options;
     onExport := None |}.

(** Two pages, a callback whose upload fails. *)
Definition args_upload_fails : @HookArgs nat :=
  {| iframeRef := iframe_with [0; 1];
     options := export_options;
     onExport := Some (fun _ _ => Throw (ErrorObject "Upload failed")) |}.

(** The iframe is not mounted. *)
Definition args_unmounted : @HookArgs nat :=
  {| iframeRef := None;
     options := export_options;
     onExport := None |}.




End Demo.

(* ===================================================================== *)
(** ** Notions for the splitter's further properties *)
(* ===================================================================== *)

Module TextNotions.

(** The segments of a split put back together with the delimiters that
    stood between them. *)
Fixpoint rejoin (segs : list text) (ds : list text) : text :=
  match segs, ds with
  | seg :: segs', d :: ds' => seg ++ d ++ rejoin segs' ds'
  | seg :: _, [] => seg
  | [], _ => []
  end.

(** A text with every LF written as CR LF. *)
Fixpoint to_crlf (s : text) : text :=
  match s with
  | [] => []
  | c :: t => if (c =? LF)%N then CR :: LF :: to_crlf t else c :: to_crlf t
  end.

End TextNotions.

Import TextNotions.

(* ===================================================================== *)
(** ** The paginated markup ([generatePaginatedHtml] of
       [utils/markdownParser.ts]) *)
(* ===================================================================== *)

Module PaginatedHtml.

Definition QUOTE : char := 34%N.

(** A non-negative integer in a template literal: its decimal digits. *)
Fixpoint digits (d : Decimal.uint) : text :=
  match d with
  | Decimal.Nil => []
  | Decimal.D0 d' => 48%N :: digits d'
  | Decimal.D1 d' => 49%N :: digits d'
  | Decimal.D2 d' => 50%N :: digits d'
  | Decimal.D3 d' => 51%N :: digits d'
  | Decimal.D4 d' => 52%N :: digits d'
  | Decimal.D5 d' => 53%N :: digits d'
  | Decimal.D6 d' => 54%N :: digits d'
  | Decimal.D7 d' => 55%N :: digits d'
  | Decimal.D8 d' => 56%N :: digits d'
  | Decimal.D9 d' => 57%N :: digits d'
  end.

Definition number_text (n : nat) : text := digits (Nat.to_uint n).

(** [Array.prototype.join]. *)
Fixpoint join (sep : text) (items : list text) : text :=
  match items with
  | [] => []
  | [x] => x
  | x :: rest => x ++ sep ++ join sep rest
  end.

(** The template literal of the callback: the wrapper, the section with
    its class and its [data-page] label, and the page's HTML. *)
Definition wrapper (pageClass : text) (label : text) (html : text) : text :=
  lit "<div class=" ++ [QUOTE] ++ lit "page-wrapper" ++ [QUOTE] ++
  lit "><section class=" ++ [QUOTE] ++ pageClass ++ [QUOTE] ++
  lit " data-page=" ++ [QUOTE] ++ label ++ [QUOTE] ++ lit ">" ++
  html ++ lit "</section></div>".

(** The array the [map] builds, before it is joined. *)
Definition page_wrappers (pages : list ParsedPage) : list text :=
  map_index
    (fun page index =>
       let isLastPage := Nat.eqb index (length pages - 1) in
       (* Don't add page-break-after on the last page *)
       let pageClass := if isLastPage then lit "page last-page" else lit "page" in
       wrapper pageClass (number_text (MarkdownParser.index page + 1))
               (html page))
    pages.

Definition generatePaginatedHtml (pages : list ParsedPage) : text :=
  join [LF] (page_wrappers pages).

End PaginatedHtml.

Import PaginatedHtml.

(* ===================================================================== *)
(** ** The page size controls ([PageSizeControls]) *)
(* ===================================================================== *)

Module PageSizeControls.

Local Open Scope string_scope.

(** [PAGE_PRESETS], in the order of its keys. *)
Definition PAGE_PRESETS : list (string * PageSize) :=
  [ ("A4", {| width := 210; height := 297; margin := 20 |});
    ("A5", {| width := 148; height := 210; margin := 15 |});
    ("Letter", {| width := 216; height := 279; margin := 20 |});
    ("Slide (16:9)", {| width := 254; height := 143; margin := 10 |});
    ("Slide (4:3)", {| width := 254; height := 190; margin := 10 |});
    ("Custom Book", {| width := 180; height := 250; margin := 15 |}) ].

(** [PAGE_PRESETS[key]] for the keys the object has of its own. *)
Fixpoint preset (key : string) (table : list (string * PageSize)) : option PageSize :=
  match table with
  | [] => None
  | (name, p) :: rest => if String.eqb name key then Some p else preset key rest
  end.

(** [handlePresetChange]: the page size passed to [onChange], if it is
    called. *)
Definition handlePresetChange (value : string) : option PageSize :=
  match preset value PAGE_PRESETS with
  | Some p => Some p
  | None => None
  end.

(** [keyof PageSize] *)
Inductive Field := Width | Height | Margin.

(** [parseFloat(e.target.value) || 0], with [None] for NaN: NaN and 0
    are falsy. *)
Definition parsed_or_zero (parsed : option Q) : Q :=
  match parsed with
  | Some q => if Qeq_bool q 0 then 0%Q else q
  | None => 0%Q
  end.

(** [handleInputChange(field)]: the page size passed to [onChange]. *)
Definition handleInputChange (pageSize : PageSize) (field : Field)
           (parsed : option Q) : PageSize :=
  let value := parsed_or_zero parsed in
  match field with
  | Width => {| width := value; height := height pageSize; margin := margin pageSize |}
  | Height => {| width := width pageSize; height := value; margin := margin pageSize |}
  | Margin => {| width := width pageSize; height := height pageSize; margin := value |}
  end.

(** The test of the [find] in [currentPreset]: [===] on the three
    numbers. *)
Definition same_size (p pageSize : PageSize) : bool :=
  Qeq_bool (width p) (width pageSize) &&
  Qeq_bool (height p) (height pageSize) &&
  Qeq_bool (margin p) (margin pageSize).

(** [currentPreset]: the name of the first preset equal to the page
    size, or ['custom']. *)
Definition currentPreset (pageSize : PageSize) : string :=
  match find (fun entry => same_size (snd entry) pageSize) PAGE_PRESETS with
  | Some entry => fst entry
  | None => "custom"
  end.

(** The bounds the three number inputs declare ([min] and [max]). *)
Definition within_input_bounds (ps : PageSize) : Prop :=
  (50 <= width ps)%Q /\ (width ps <= 500)%Q /\
  (50 <= height ps)%Q /\ (height ps <= 500)%Q /\
  (0 <= margin ps)%Q /\ (margin ps <= 50)%Q.

End PageSizeControls.

(* ===================================================================== *)
(** ** Reading the stylesheet: which declaration wins *)
(* ===================================================================== *)

Module Cascade.

Local Open Scope string_scope.

(** Whether the rules of a context apply in a medium: rules outside any
    [@media] block always do. *)
Definition applies (medium : string) (context : option string) : bool :=
  match context with
  | None => true
  | Some query => String.eqb query medium
  end.

(** Among the rule sets of one selector (so of equal specificity), the
    declaration of a property that comes last in the sheet wins. *)
Definition winning (sel prop medium : string) (sheet : stylesheet) : option css_value :=
  fold_left
    (fun won cr =>
       if applies medium (fst cr)
       then match declared prop (declarations (snd cr)) with
            | Some v => Some v
            | None => won
            end
       else won)
    (rule_sets sel sheet) None.

(** The declarations of the [@page] rule. *)
Definition at_page (prop : string) (sheet : stylesheet) : option css_value :=
  fold_left
    (fun won b =>
       match b with
       | AtPage ds => match declared prop ds with Some v => Some v | None => won end
       | _ => won
       end)
    sheet None.

End Cascade.

(* ===================================================================== *)
(** ** One invocation of [exportPdf] with the calls it makes *)
(* ===================================================================== *)

Module ExportTrace.

(** [run_alone], keeping the events of each resumption. *)
Fixpoint run_logged {Element Canvas : Type} (W : @World Element Canvas)
         (A : @HookArgs Element) (fuel : nat) (k : Suspended) (st : HookState)
  : Suspended * HookState * list Event :=
  match k, fuel with
  | Settled _, _ => (k, st, [])
  | _, O => (k, st, [])
  | _, S fuel' =>
      let '(k', st', evs) := resume W A k st in
      let '(k'', st'', evs') := run_logged W A fuel' k' st' in
      (k'', st'', evs ++ evs')
  end.

(** An invocation from its call on: the start, then the resumptions. *)
Definition invoke_logged {Element Canvas : Type} (W : @World Element Canvas)
           (A : @HookArgs Element) (fuel : nat) (st : HookState)
  : Suspended * HookState * list Event :=
  let '(k, st', evs) := start A st in
  let '(k', st'', evs') := run_logged W A fuel k st' in
  (k', st'', evs ++ evs').

(** The events of a step put before those of what follows it. *)
Definition prepend {Element : Type} (evs : list (@Event Element))
           (r : @Suspended Element * HookState * list (@Event Element))
  : Suspended * HookState * list Event :=
  let '(k, st, evs') := r in (k, st, evs ++ evs').

(** A step followed by the resumptions after it. *)
Definition logged_step {Element Canvas : Type} (W : @World Element Canvas)
           (A : @HookArgs Element) (fuel : nat) (s : @Step Element)
  : Suspended * HookState * list Event :=
  let '(k, st, evs) := s in prepend evs (run_logged W A fuel k st).

(** The hook state while an export is in flight. *)
Definition busy : HookState := {| isExporting := true; error := None |}.

End ExportTrace.

Import ExportTrace.

(* ===================================================================== *)
(** ** The print button ([PrintButton]) *)
(* ===================================================================== *)

Module PrintButton.



End PrintButton.

(* ===================================================================== *)
(** * Properties *)
(* ===================================================================== *)

(** ** Strings *)

Section StringFacts.

Lemma strip_prefix_app p s after :
  strip_prefix p s = Some after -> s = p ++ after.
Proof.
  revert s; induction p as [|a p IH]; intros s H; simpl in *.
  - now inversion H.
  - destruct s as [|b s]; [discriminate|].
    destruct (N.eqb_spec a b); [|discriminate].
    subst. f_equal. now apply IH.
Qed.

Lemma strip_prefix_complete p after : strip_prefix p (p ++ after) = Some after.
Proof.
  induction p as [|a p IH]; simpl; [reflexivity|].
  now rewrite N.eqb_refl.
Qed.

(** A literal found in [s ++ t] either lies inside [s] or straddles the
    seam, a non-empty part of it starting [t]. *)
Lemma strip_prefix_seam p s t after :
  strip_prefix p (s ++ t) = Some after ->
  (exists s', s = p ++ s' /\ after = s' ++ t) \/
  (exists p1 p2, p = p1 ++ p2 /\ s = p1 /\ p2 <> [] /\ strip_prefix p2 t = Some after).
Proof.
  revert s; induction p as [|a p IH]; intros s H.
  - simpl in H. inversion H; subst. left. now exists s.
  - destruct s as [|b s].
    + right. exists [], (a :: p). repeat split; [discriminate|exact H].
    + simpl in H. destruct (N.eqb_spec a b); [|discriminate]. subst b.
      destruct (IH _ H) as [(s' & -> & ->)|(p1 & p2 & -> & -> & Hp2 & Hs)].
      * left. now exists s'.
      * right. exists (a :: p1), p2. repeat split; assumption.
Qed.

Lemma trimStart_spec s :
  exists ws, s = ws ++ trimStart s /\ forallb isTrimmable ws = true.
Proof.
  induction s as [|c s (ws & Hs & Hws)]; simpl.
  - now exists [].
  - destruct (isTrimmable c) eqn:E.
    + exists (c :: ws). simpl. rewrite E, Hws. split; [now f_equal|reflexivity].
    + now exists [].
Qed.

Lemma trimStart_head s c r : trimStart s = c :: r -> isTrimmable c = false.
Proof.
  induction s as [|d s IH]; simpl; [discriminate|].
  destruct (isTrimmable d) eqn:E; [assumption|].
  intros H; inversion H; now subst.
Qed.


Lemma trimStart_nil_iff s : trimStart s = [] <-> forallb isTrimmable s = true.
Proof.
  induction s as [|c s IH]; simpl; [tauto|].
  destruct (isTrimmable c); simpl; [assumption|].
  split; discriminate.
Qed.

Lemma trimStart_blank_app ws s :
  forallb isTrimmable ws = true -> trimStart (ws ++ s) = trimStart s.
Proof.
  induction ws as [|c ws IH]; simpl; [reflexivity|].
  intros H. apply andb_prop in H as [-> H]. now apply IH.
Qed.

Lemma has_content_forallb s : has_content s = negb (forallb isTrimmable s).
Proof.
  unfold has_content. induction s as [|c s IH]; simpl; [reflexivity|].
  rewrite IH. now destruct (isTrimmable c).
Qed.

Lemma forallb_rev {A} (f : A -> bool) l : forallb f (rev l) = forallb f l.
Proof.
  induction l as [|x l IH]; simpl; [reflexivity|].
  rewrite forallb_app, IH. simpl. rewrite andb_true_r. apply andb_comm.
Qed.

(** [page.trim().length > 0] holds exactly for the texts with a
    character that is neither white space nor a line terminator. *)
Lemma trim_length_pos s : (0 <? length (trim s)) = has_content s.
Proof.
  rewrite has_content_forallb. unfold trim, trimEnd.
  rewrite length_rev.
  destruct (forallb isTrimmable s) eqn:E; simpl.
  - apply trimStart_nil_iff in E. rewrite E. reflexivity.
  - destruct (trimStart (rev (trimStart s))) as [|c r] eqn:T; [|reflexivity].
    exfalso. apply trimStart_nil_iff in T. rewrite forallb_rev in T.
    destruct (trimStart s) as [|d r] eqn:T'.
    + apply trimStart_nil_iff in T'. congruence.
    + apply trimStart_head in T'. simpl in T. rewrite T' in T. discriminate.
Qed.


End StringFacts.

(** ** The delimiter splitter *)

Section Splitter.

(** A match consumes a non-empty prefix of the input. *)
Lemma regex_match_inv prev rest m after :
  PAGE_DELIMITER_REGEX prev rest = Some (m, after) ->
  rest = m ++ after /\ (m = PAGE_TOKEN \/ m = [FF]).
Proof.
  unfold PAGE_DELIMITER_REGEX, match_token_line, match_form_feed.
  intros H.
  assert (Hff : match rest with
                | [] => None
                | c :: after => if (c =? FF)%N then Some ([FF], after) else None
                end = Some (m, after) ->
                rest = m ++ after /\ (m = PAGE_TOKEN \/ m = [FF])).
  { destruct rest as [|c r]; [discriminate|].
    destruct (N.eqb_spec c FF); [|discriminate].
    intros H'; inversion H'; subst. split; [reflexivity|now right]. }
  destruct (line_start prev); [|now apply Hff].
  destruct (strip_prefix PAGE_TOKEN rest) as [a|] eqn:E; [|now apply Hff].
  destruct (line_end a); [|now apply Hff].
  inversion H; subst. split; [|now left].
  now apply strip_prefix_app.
Qed.

Lemma split_loop_nil prev cur : split_loop prev cur [] = [rev cur].
Proof. now simp split_loop. Qed.

Lemma split_loop_cons prev cur c rest :
  split_loop prev cur (c :: rest) =
  match PAGE_DELIMITER_REGEX prev (c :: rest) with
  | Some (m, after) => rev cur :: split_loop (prev_after m prev) [] after
  | None => split_loop (Some c) (c :: cur) rest
  end.
Proof.
  simp split_loop.
  destruct (inspect (PAGE_DELIMITER_REGEX prev (c :: rest))) as [[[m after]|] E];
    simpl; rewrite E; reflexivity.
Qed.

(** Induction along the scan of [split_loop]. *)
Lemma split_loop_scan (P : option char -> text -> text -> list text -> Prop) :
  (forall prev cur, P prev cur [] [rev cur]) ->
  (forall prev cur c rest m after,
      PAGE_DELIMITER_REGEX prev (c :: rest) = Some (m, after) ->
      P (prev_after m prev) [] after (split_loop (prev_after m prev) [] after) ->
      P prev cur (c :: rest) (rev cur :: split_loop (prev_after m prev) [] after)) ->
  (forall prev cur c rest,
      PAGE_DELIMITER_REGEX prev (c :: rest) = None ->
      P (Some c) (c :: cur) rest (split_loop (Some c) (c :: cur) rest) ->
      P prev cur (c :: rest) (split_loop (Some c) (c :: cur) rest)) ->
  forall prev cur s, P prev cur s (split_loop prev cur s).
Proof.
  intros Hnil Hmatch Hskip prev cur s.
  remember (length s) as n eqn:Hn.
  revert prev cur s Hn.
  induction n as [n IH] using lt_wf_ind.
  intros prev cur [|c rest] Hn.
  - rewrite split_loop_nil. apply Hnil.
  - rewrite split_loop_cons.
    destruct (PAGE_DELIMITER_REGEX prev (c :: rest)) as [[m after]|] eqn:E.
    + apply Hmatch; [exact E|].
      assert (Hlen : length after < length (c :: rest)).
      { destruct (regex_match_inv _ _ _ _ E) as [Hr [Hm|Hm]];
          rewrite Hr, length_app; subst m; simpl; lia. }
      eapply IH; [|reflexivity]. subst n. exact Hlen.
    + apply Hskip; [exact E|].
      eapply IH; [|reflexivity]. subst n. simpl. lia.
Qed.

(** The scan always returns a first segment: the text collected so far
    followed by a prefix of the input. *)
Lemma split_loop_head prev cur s :
  exists p q rest, split_loop prev cur s = (rev cur ++ p) :: rest /\ s = p ++ q.
Proof.
  apply (split_loop_scan
           (fun prev cur s r =>
              exists p q rest, r = (rev cur ++ p) :: rest /\ s = p ++ q)).
  - intros prev' cur'. exists [], [], []. now rewrite app_nil_r.
  - intros prev' cur' c rest m after _ _.
    exists [], (c :: rest), (split_loop (prev_after m prev') [] after).
    now rewrite app_nil_r.
  - intros prev' cur' c rest _ (p & q & r & -> & ->).
    exists (c :: p), q, r. simpl. now rewrite <- app_assoc.
Qed.

Lemma split_regex_nonempty s : split_regex s <> [].
Proof.
  unfold split_regex.
  destruct (split_loop_head None [] s) as (p & q & rest & -> & _).
  discriminate.
Qed.

Lemma filter_from_succ (g : text -> bool) i (l : list text) :
  filter_from (fun page index => if Nat.eqb index 0 then true else g page) (S i) l
  = filter g l.
Proof.
  revert i; induction l as [|x l IH]; intro i; simpl; [reflexivity|].
  now rewrite IH.
Qed.

(** The splitter keeps the first segment and, of the others, those with
    content. *)
Lemma splitByPageDelimiters_filter s first rest :
  split_regex (replace_crlf s) = first :: rest ->
  splitByPageDelimiters s = first :: filter has_content rest.
Proof.
  intros H. unfold splitByPageDelimiters, filter_index. rewrite H. simpl.
  rewrite filter_from_succ.
  f_equal. apply filter_ext. intro p. apply trim_length_pos.
Qed.

(** The segments of the scan, with the delimiters that were matched put
    back between them, are the text that was scanned. *)
Lemma split_loop_rejoin prev cur s :
  exists ds,
    S (length ds) = length (split_loop prev cur s) /\
    Forall (fun d => d = PAGE_TOKEN \/ d = [FF]) ds /\
    rejoin (split_loop prev cur s) ds = rev cur ++ s.
Proof.
  apply (split_loop_scan
           (fun prev cur s r =>
              exists ds,
                S (length ds) = length r /\
                Forall (fun d => d = PAGE_TOKEN \/ d = [FF]) ds /\
                rejoin r ds = rev cur ++ s)).
  - intros prev' cur'. exists []. simpl. rewrite app_nil_r. repeat constructor.
  - intros prev' cur' c rest m after E (ds & Hlen & Hds & Hj).
    destruct (regex_match_inv _ _ _ _ E) as [Hr Hm].
    exists (m :: ds). simpl length. split; [now rewrite Hlen|].
    split; [now constructor|].
    simpl rejoin. rewrite Hj, Hr. reflexivity.
  - intros prev' cur' c rest _ (ds & Hlen & Hds & Hj).
    exists ds. split; [exact Hlen|]. split; [exact Hds|].
    rewrite Hj. simpl. now rewrite <- app_assoc.
Qed.

End Splitter.


Section Delimiters.

Lemma prev_after_app m s prev :
  prev_after (m ++ s) prev = prev_after s (prev_after m prev).
Proof.
  unfold prev_after. rewrite rev_app_distr.
  destruct (rev s); [reflexivity|reflexivity].
Qed.

Lemma prev_after_cons c s prev :
  prev_after (c :: s) prev = prev_after s (Some c).
Proof. apply (prev_after_app [c] s prev). Qed.

Lemma prev_after_In s prev c :
  s <> [] -> prev_after s prev = Some c -> In c s.
Proof.
  unfold prev_after. intros Hs.
  destruct (rev s) as [|d r] eqn:E.
  - apply (f_equal (@rev _)) in E. rewrite rev_involutive in E. now subst.
  - intros H; inversion H; subst. apply in_rev. rewrite E. now left.
Qed.

(** No code unit of the token is a line terminator or a form feed. *)
Lemma token_chars c :
  In c PAGE_TOKEN -> isLineTerminator c = false /\ c <> FF.
Proof.
  unfold PAGE_TOKEN; simpl.
  intros H; repeat (destruct H as [<-|H]; [split; [reflexivity|discriminate]|]).
  contradiction.
Qed.

(** The pattern matches where the text has a delimiter. *)
Lemma regex_at_delimiter prev d post :
  delimiter_at prev d post ->
  PAGE_DELIMITER_REGEX prev (d ++ post) = Some (d, post).
Proof.
  unfold PAGE_DELIMITER_REGEX, match_token_line, match_form_feed.
  intros [->|(-> & Hs & He)].
  - destruct (line_start prev); reflexivity.
  - rewrite Hs, strip_prefix_complete, He. reflexivity.
Qed.

(** A match that starts before a delimiter ends before it: matches do
    not overlap. *)
Lemma regex_before_delimiter prev pre d post m after :
  pre <> [] ->
  delimiter_at (prev_after pre prev) d post ->
  PAGE_DELIMITER_REGEX prev (pre ++ d ++ post) = Some (m, after) ->
  exists pre', pre = m ++ pre' /\ after = pre' ++ d ++ post.
Proof.
  intros Hpre Hd H.
  assert (Hff : match_form_feed (pre ++ d ++ post) = Some (m, after) ->
                exists pre', pre = m ++ pre' /\ after = pre' ++ d ++ post).
  { unfold match_form_feed. destruct pre as [|c pre']; [congruence|]. simpl.
    destruct (N.eqb_spec c FF); [|discriminate].
    intros H'; inversion H'; subst. now exists pre'. }
  unfold PAGE_DELIMITER_REGEX, match_token_line in H.
  destruct (line_start prev); [|now apply Hff].
  destruct (strip_prefix PAGE_TOKEN (pre ++ d ++ post)) as [a|] eqn:E;
    [|now apply Hff].
  destruct (line_end a); [|now apply Hff].
  inversion H; subst m a; clear H.
  apply strip_prefix_seam in E.
  destruct E as [(s' & -> & ->)|(p1 & p2 & Htok & <- & Hp2 & Hs)].
  - now exists s'.
  - exfalso. destruct Hd as [->|(-> & Hls & _)].
    + destruct p2 as [|x p2]; [congruence|]. simpl in Hs.
      destruct (N.eqb_spec x FF); [|discriminate]. subst x.
      destruct (token_chars FF) as [_ Hne]; [|congruence].
      rewrite Htok. apply in_or_app. right. now left.
    + destruct (prev_after pre prev) as [c|] eqn:Ec.
      * apply prev_after_In in Ec; [|assumption].
        destruct (token_chars c) as [Hlt _].
        { rewrite Htok. apply in_or_app. now left. }
        simpl in Hls. congruence.
      * unfold prev_after in Ec. destruct (rev pre) eqn:Er; [|discriminate].
        apply (f_equal (@rev _)) in Er. rewrite rev_involutive in Er.
        now subst.
Qed.

(** Wherever the text has a delimiter, the segment being collected is
    closed before it and the scan starts afresh behind it. *)
Lemma split_loop_delimiter pre :
  forall prev cur d post,
    delimiter_at (prev_after pre prev) d post ->
    exists init seg,
      split_loop prev cur (pre ++ d ++ post)
      = init ++ seg :: split_loop (prev_after (pre ++ d) prev) [] post /\
      ends_with (rev cur ++ pre) seg.
Proof.
  remember (length pre) as n eqn:Hn. revert pre Hn.
  induction n as [n IH] using lt_wf_ind.
  intros [|c pre] Hn prev cur d post Hd.
  - change (prev_after [] prev) with prev in Hd. simpl.
    exists [], (rev cur).
    assert (Hne : exists x r, d ++ post = x :: r).
    { destruct Hd as [->|(-> & _)]; simpl; eauto. }
    destruct Hne as (x & r & Hxr).
    rewrite Hxr, split_loop_cons, <- Hxr, (regex_at_delimiter _ _ _ Hd).
    split; [reflexivity|]. exists []. now rewrite app_nil_r.
  - change ((c :: pre) ++ d ++ post) with (c :: (pre ++ d ++ post)).
    rewrite split_loop_cons.
    change (c :: (pre ++ d ++ post)) with ((c :: pre) ++ d ++ post).
    destruct (PAGE_DELIMITER_REGEX prev ((c :: pre) ++ d ++ post))
      as [[m after]|] eqn:E.
    + destruct (regex_before_delimiter prev (c :: pre) d post m after)
        as (pre' & Hpre & ->); [discriminate|assumption|assumption|].
      destruct (regex_match_inv _ _ _ _ E) as [_ Hm].
      assert (Hlen : length pre' < n).
      { subst n. rewrite Hpre, length_app.
        destruct Hm as [->| ->]; simpl; lia. }
      destruct (IH _ Hlen pre' eq_refl (prev_after m prev) [] d post)
        as (init & seg & Heq & (x & Hx)).
      { rewrite <- prev_after_app, <- Hpre. exact Hd. }
      exists (rev cur :: init), seg. split.
      * rewrite Heq, <- prev_after_app, app_assoc, <- Hpre. reflexivity.
      * exists (rev cur ++ m ++ x). rewrite Hpre. simpl in Hx. rewrite Hx.
        now rewrite <- !app_assoc.
    + assert (Hlen : length pre < n) by (subst n; simpl; lia).
      destruct (IH _ Hlen pre eq_refl (Some c) (c :: cur) d post)
        as (init & seg & Heq & (x & Hx)).
      { rewrite <- (prev_after_cons c pre prev). exact Hd. }
      exists init, seg. split.
      * rewrite Heq, <- (prev_after_cons c (pre ++ d) prev). reflexivity.
      * exists x. rewrite <- Hx. simpl. now rewrite <- app_assoc.
Qed.

(** The same, with what the closed segments hold: those up to the
    delimiter, rejoined with the delimiters matched between them, are
    the text before it, no more and no less. *)
Lemma split_loop_cut pre :
  forall prev cur d post,
    delimiter_at (prev_after pre prev) d post ->
    exists init seg ds,
      split_loop prev cur (pre ++ d ++ post)
      = init ++ seg :: split_loop (prev_after (pre ++ d) prev) [] post /\
      length ds = length init /\
      Forall (fun x => x = PAGE_TOKEN \/ x = [FF]) ds /\
      rejoin (init ++ [seg]) ds = rev cur ++ pre.
Proof.
  remember (length pre) as n eqn:Hn. revert pre Hn.
  induction n as [n IH] using lt_wf_ind.
  intros [|c pre] Hn prev cur d post Hd.
  - change (prev_after [] prev) with prev in Hd. simpl.
    exists [], (rev cur), [].
    assert (Hne : exists x r, d ++ post = x :: r).
    { destruct Hd as [->|(-> & _)]; simpl; eauto. }
    destruct Hne as (x & r & Hxr).
    rewrite Hxr, split_loop_cons, <- Hxr, (regex_at_delimiter _ _ _ Hd).
    split; [reflexivity|]. split; [reflexivity|]. split; [constructor|].
    simpl. now rewrite app_nil_r.
  - change ((c :: pre) ++ d ++ post) with (c :: (pre ++ d ++ post)).
    rewrite split_loop_cons.
    change (c :: (pre ++ d ++ post)) with ((c :: pre) ++ d ++ post).
    destruct (PAGE_DELIMITER_REGEX prev ((c :: pre) ++ d ++ post))
      as [[m after]|] eqn:E.
    + destruct (regex_before_delimiter prev (c :: pre) d post m after)
        as (pre' & Hpre & ->); [discriminate|assumption|assumption|].
      destruct (regex_match_inv _ _ _ _ E) as [_ Hm].
      assert (Hlen : length pre' < n).
      { subst n. rewrite Hpre, length_app.
        destruct Hm as [->| ->]; simpl; lia. }
      destruct (IH _ Hlen pre' eq_refl (prev_after m prev) [] d post)
        as (init & seg & ds & Heq & Hds & Hdel & Hj).
      { rewrite <- prev_after_app, <- Hpre. exact Hd. }
      exists (rev cur :: init), seg, (m :: ds).
      split; [|split; [|split]].
      * rewrite Heq, <- prev_after_app, app_assoc, <- Hpre. reflexivity.
      * simpl. now rewrite Hds.
      * now constructor.
      * rewrite Hpre. simpl in Hj |- *. now rewrite Hj.
    + assert (Hlen : length pre < n) by (subst n; simpl; lia).
      destruct (IH _ Hlen pre eq_refl (Some c) (c :: cur) d post)
        as (init & seg & ds & Heq & Hds & Hdel & Hj).
      { rewrite <- (prev_after_cons c pre prev). exact Hd. }
      exists init, seg, ds.
      split; [|split; [|split]]; [|exact Hds|exact Hdel|].
      * rewrite Heq, <- (prev_after_cons c (pre ++ d) prev). reflexivity.
      * rewrite Hj. simpl. now rewrite <- app_assoc.
Qed.

(** The last of the rejoined segments ends the text. *)
Lemma rejoin_ends_with init :
  forall seg ds, length ds = length init ->
                 ends_with (rejoin (init ++ [seg]) ds) seg.
Proof.
  induction init as [|x init IH]; intros seg ds Hlen.
  - destruct ds; [|discriminate]. now exists [].
  - destruct ds as [|d ds]; [discriminate|].
    simpl in Hlen. injection Hlen as Hlen.
    destruct (IH seg ds Hlen) as (y & Hy).
    exists (x ++ d ++ y). simpl. rewrite Hy. now rewrite <- !app_assoc.
Qed.

End Delimiters.

Section Pages.

Variable md_render : text -> text.

Lemma nth_error_map_from {A B} (f : A -> nat -> B) k (l : list A) i :
  nth_error (map_from f k l) i
  = option_map (fun x => f x (k + i)) (nth_error l i).
Proof.
  revert k i; induction l as [|x l IH]; intros k [|i]; simpl; try reflexivity.
  - now rewrite Nat.add_0_r.
  - rewrite IH. now rewrite Nat.add_succ_r.
Qed.

Lemma map_map_from {A B C} (g : B -> C) (f : A -> nat -> B) k (l : list A) :
  map g (map_from f k l) = map_from (fun x i => g (f x i)) k l.
Proof.
  revert k; induction l as [|x l IH]; intro k; simpl; [reflexivity|].
  now rewrite IH.
Qed.

Lemma map_from_const {A B} (g : A -> B) k (l : list A) :
  map_from (fun x _ => g x) k l = map g l.
Proof.
  revert k; induction l as [|x l IH]; intro k; simpl; [reflexivity|].
  now rewrite IH.
Qed.

(** The pages are the segments of the splitter, each with its own
    rendering. *)
Lemma parseMarkdownToPages_nth s i :
  nth_error (parseMarkdownToPages md_render s) i
  = option_map
      (fun content =>
         {| index := i; markdown := content;
            html := markdownToHtml md_render content |})
      (nth_error (splitByPageDelimiters s) i).
Proof.
  unfold parseMarkdownToPages, map_index. now rewrite nth_error_map_from.
Qed.

Lemma parseMarkdownToPages_markdown s :
  map markdown (parseMarkdownToPages md_render s) = splitByPageDelimiters s.
Proof.
  unfold parseMarkdownToPages, map_index.
  rewrite map_map_from. simpl. rewrite map_from_const. apply map_id.
Qed.

Lemma parseMarkdownToPages_html s :
  map html (parseMarkdownToPages md_render s)
  = map md_render (splitByPageDelimiters s).
Proof.
  unfold parseMarkdownToPages, map_index.
  rewrite map_map_from. simpl. now rewrite map_from_const.
Qed.

End Pages.

(** C8: rendering is page-local.  The [i]-th page of
    [parseMarkdownToPages] is the [i]-th segment of the splitter with
    [markdownToHtml] applied to that segment alone; two pages with the
    same markdown, in any documents and at any positions, have the same
    HTML. *)
Theorem rendering_is_page_local (md_render : text -> text) :
  (forall s i,
      nth_error (parseMarkdownToPages md_render s) i
      = option_map
          (fun content =>
             {| index := i; markdown := content;
                html := markdownToHtml md_render content |})
          (nth_error (splitByPageDelimiters s) i)) /\
  (forall s1 s2 i j p1 p2,
      nth_error (parseMarkdownToPages md_render s1) i = Some p1 ->
      nth_error (parseMarkdownToPages md_render s2) j = Some p2 ->
      markdown p1 = markdown p2 ->
      html p1 = html p2).
Proof.
  split.
  - apply parseMarkdownToPages_nth.
  - intros s1 s2 i j p1 p2 H1 H2 Hm.
    rewrite parseMarkdownToPages_nth in H1, H2.
    destruct (nth_error (splitByPageDelimiters s1) i); [|discriminate].
    destruct (nth_error (splitByPageDelimiters s2) j); [|discriminate].
    simpl in *. inversion H1; inversion H2; subst; simpl in *. now subst.
Qed.

(** The second page of a numbered list cut by a delimiter and the only
    page of that list item alone render to the same HTML. *)
Lemma rendering_is_page_local_witness :
  let render := fun x : text => lit "<li>" ++ x in
  let s1 := lit "1. a" ++ [LF] ++ lit "---page---" ++ [LF] ++ lit "2. b" in
  let s2 := [LF] ++ lit "2. b" in
  let p1 := {| index := 1; markdown := [LF] ++ lit "2. b";
               html := render ([LF] ++ lit "2. b") |} in
  let p2 := {| index := 0; markdown := [LF] ++ lit "2. b";
               html := render ([LF] ++ lit "2. b") |} in
  nth_error (parseMarkdownToPages render s1) 1 = Some p1 /\
  nth_error (parseMarkdownToPages render s2) 0 = Some p2 /\
  markdown p1 = markdown p2 /\
  html p1 = html p2.
Proof.
  intros render s1 s2 p1 p2.
  assert (H1 : nth_error (parseMarkdownToPages render s1) 1 = Some p1)
    by reflexivity.
  assert (H2 : nth_error (parseMarkdownToPages render s2) 0 = Some p2)
    by reflexivity.
  assert (Hm : markdown p1 = markdown p2) by reflexivity.
  split; [exact H1|]. split; [exact H2|]. split; [exact Hm|].
  exact (proj2 (rendering_is_page_local render) s1 s2 1 0 p1 p2 H1 H2 Hm).
Defined.

(** C10: delimiter recognition ignores markdown structure.  Whatever the
    text before and after it (an open code fence included), a form feed,
    or the token on a line of its own, cuts the text exactly there: a
    segment of the split ends at it and the next one starts behind it;
    the segments up to it, with the delimiters matched between them put
    back, are the text before it, and those from it on are the text
    after it.  So the text before it and the text after it never share a
    page; the pages are those segments (blank later ones dropped), and
    the renderer, applied to each page afterwards, has no say in where
    pages begin. *)
Theorem delimiters_ignore_markdown_structure :
  forall md_render s pre d post,
    replace_crlf s = pre ++ d ++ post ->
    delimiter_at (prev_after pre None) d post ->
    exists before a b after dels_before dels_after,
      split_regex (replace_crlf s) = before ++ a :: b :: after /\
      length dels_before = length before /\
      Forall (fun x => x = PAGE_TOKEN \/ x = [FF]) dels_before /\
      rejoin (before ++ [a]) dels_before = pre /\
      length dels_after = length after /\
      Forall (fun x => x = PAGE_TOKEN \/ x = [FF]) dels_after /\
      rejoin (b :: after) dels_after = post /\
      ends_with pre a /\
      starts_with post b /\
      (exists first rest,
          before ++ a :: b :: after = first :: rest /\
          splitByPageDelimiters s = first :: filter has_content rest) /\
      map markdown (parseMarkdownToPages md_render s) = splitByPageDelimiters s /\
      map html (parseMarkdownToPages md_render s)
      = map md_render (splitByPageDelimiters s).
Proof.
  intros md_render s pre d post Hs Hd.
  destruct (split_loop_cut pre None [] d post Hd)
    as (init & seg & ds & Heq & Hlen & Hdel & Hj).
  simpl in Hj.
  destruct (split_loop_head (prev_after (pre ++ d) None) [] post)
    as (p & q & rest & Hrest & Hpost).
  destruct (split_loop_rejoin (prev_after (pre ++ d) None) [] post)
    as (ds' & Hlen' & Hdel' & Hj').
  rewrite Hrest in Hlen', Hj'. simpl in Hlen', Hj'.
  exists init, seg, p, rest, ds, ds'.
  assert (Hsplit : split_regex (replace_crlf s) = init ++ seg :: p :: rest).
  { unfold split_regex. rewrite Hs, Heq, Hrest. reflexivity. }
  split; [exact Hsplit|].
  split; [exact Hlen|].
  split; [exact Hdel|].
  split; [exact Hj|].
  split; [lia|].
  split; [exact Hdel'|].
  split; [exact Hj'|].
  split; [rewrite <- Hj; now apply rejoin_ends_with|].
  split; [now exists q|].
  split; [|split].
  - destruct (init ++ seg :: p :: rest) as [|first others] eqn:E.
    + now destruct init.
    + exists first, others. split; [exact E|].
      now apply splitByPageDelimiters_filter.
  - apply parseMarkdownToPages_markdown.
  - apply parseMarkdownToPages_html.
Qed.

(** A delimiter line inside a fenced code block, after a first page: the
    fence is cut open, its two halves land on different pages. *)
Lemma delimiters_ignore_markdown_structure_witness :
  let pre := lit "intro" ++ [FF] ++ lit "```" ++ [LF] in
  let post := [LF] ++ lit "```" in
  let s := pre ++ lit "---page---" ++ post in
  replace_crlf s = pre ++ PAGE_TOKEN ++ post /\
  delimiter_at (prev_after pre None) PAGE_TOKEN post /\
  splitByPageDelimiters s = [lit "intro"; lit "```" ++ [LF]; [LF] ++ lit "```"] /\
  exists before a b after dels_before dels_after,
    split_regex (replace_crlf s) = before ++ a :: b :: after /\
    length dels_before = length before /\
    Forall (fun x => x = PAGE_TOKEN \/ x = [FF]) dels_before /\
    rejoin (before ++ [a]) dels_before = pre /\
    length dels_after = length after /\
    Forall (fun x => x = PAGE_TOKEN \/ x = [FF]) dels_after /\
    rejoin (b :: after) dels_after = post /\
    ends_with pre a /\
    starts_with post b /\
    (exists first rest,
        before ++ a :: b :: after = first :: rest /\
        splitByPageDelimiters s = first :: filter has_content rest) /\
    map markdown (parseMarkdownToPages (fun x => x) s) = splitByPageDelimiters s /\
    map html (parseMarkdownToPages (fun x => x) s)
    = map (fun x => x) (splitByPageDelimiters s).
Proof.
  intros pre post s.
  assert (Hs : replace_crlf s = pre ++ PAGE_TOKEN ++ post) by reflexivity.
  assert (Hd : delimiter_at (prev_after pre None) PAGE_TOKEN post).
  { right. split; [reflexivity|]. split; reflexivity. }
  split; [exact Hs|]. split; [exact Hd|]. split; [reflexivity|].
  exact (delimiters_ignore_markdown_structure (fun x => x) s pre PAGE_TOKEN post Hs Hd).
Defined.

Section Interchangeable.

Lemma replace_crlf_no_CR s : ~ In CR s -> replace_crlf s = s.
Proof.
  induction s as [|c t IH]; [reflexivity|].
  intros H. destruct t as [|d t'].
  - reflexivity.
  - assert (Hc : (c =? CR)%N = false).
    { apply N.eqb_neq. intros ->. apply H. now left. }
    change (replace_crlf (c :: d :: t'))
      with (if ((c =? CR)%N && (d =? LF)%N)%bool
            then LF :: replace_crlf t'
            else c :: replace_crlf (d :: t')).
    rewrite Hc. simpl andb. cbv iota. f_equal. apply IH.
    intros Hin. apply H. now right.
Qed.

(** The pattern looks behind only to tell whether a line starts. *)
Lemma regex_line_start p p' y :
  line_start p = line_start p' ->
  PAGE_DELIMITER_REGEX p y = PAGE_DELIMITER_REGEX p' y.
Proof.
  unfold PAGE_DELIMITER_REGEX, match_token_line. now intros ->.
Qed.

Lemma regex_not_line_start p p' y :
  line_start p = false ->
  PAGE_DELIMITER_REGEX p' y = None ->
  PAGE_DELIMITER_REGEX p y = None.
Proof.
  unfold PAGE_DELIMITER_REGEX, match_token_line. intros -> H.
  destruct (line_start p'); [|assumption].
  destruct (strip_prefix PAGE_TOKEN y) as [a|]; [|assumption].
  destruct (line_end a); [discriminate|assumption].
Qed.

(** No match at a position stays no match when the text goes on with a
    code unit that the token does not have. *)
Lemma regex_none_extend p y z t :
  y <> [] -> ~ In z PAGE_TOKEN ->
  PAGE_DELIMITER_REGEX p y = None ->
  PAGE_DELIMITER_REGEX p (y ++ z :: t) = None.
Proof.
  intros Hy Hz H.
  unfold PAGE_DELIMITER_REGEX, match_token_line in *.
  assert (Hff : match_form_feed y = None -> match_form_feed (y ++ z :: t) = None).
  { unfold match_form_feed. destruct y as [|c y']; [congruence|]. simpl.
    now destruct (c =? FF)%N. }
  destruct (line_start p); [|now apply Hff].
  destruct (strip_prefix PAGE_TOKEN (y ++ z :: t)) as [a|] eqn:E.
  - apply strip_prefix_seam in E.
    destruct E as [(s' & -> & ->)|(p1 & p2 & Htok & <- & Hp2 & Hs)].
    + rewrite strip_prefix_complete in H.
      destruct s' as [|c s'].
      * simpl in H. discriminate.
      * change (line_end ((c :: s') ++ z :: t)) with (line_end (c :: s')).
        destruct (line_end (c :: s')); [discriminate|].
        apply Hff. exact H.
    + exfalso. destruct p2 as [|x p2]; [congruence|]. simpl in Hs.
      destruct (N.eqb_spec x z); [|discriminate]. subst x.
      apply Hz. rewrite Htok. apply in_or_app. right. now left.
  - apply Hff.
    destruct (strip_prefix PAGE_TOKEN y) as [a|]; [|assumption].
    destruct (line_end a); [discriminate|assumption].
Qed.

Lemma unmatched_tail prev c s :
  unmatched prev (c :: s) -> unmatched (Some c) s.
Proof.
  intros H x y Hs Hy. rewrite <- prev_after_cons with (prev := prev).
  apply H; [|assumption]. simpl. now f_equal.
Qed.

Lemma split_single_unmatched s :
  forall prev cur r, split_loop prev cur s = [r] -> unmatched prev s.
Proof.
  induction s as [|c s IH]; intros prev cur r H x y Hs Hy.
  - destruct x; destruct y; simpl in Hs; congruence.
  - rewrite split_loop_cons in H.
    destruct (PAGE_DELIMITER_REGEX prev (c :: s)) as [[m after]|] eqn:E.
    + exfalso.
      destruct (split_loop_head (prev_after m prev) [] after)
        as (p & q & rest & Hr & _).
      rewrite Hr in H. discriminate.
    + destruct x as [|c' x]; simpl in Hs.
      * subst y. exact E.
      * inversion Hs; subst c' s. rewrite prev_after_cons.
        now apply (IH (Some c) (c :: cur) r H).
Qed.

(** Scanning an unmatched text up to a delimiter collects it whole. *)
Lemma split_loop_unmatched_then a :
  forall prev cur d post,
    (forall x y, a = x ++ y -> y <> [] ->
                 PAGE_DELIMITER_REGEX (prev_after x prev) (y ++ d ++ post) = None) ->
    delimiter_at (prev_after a prev) d post ->
    split_loop prev cur (a ++ d ++ post)
    = (rev cur ++ a) :: split_loop (prev_after (a ++ d) prev) [] post.
Proof.
  induction a as [|c a IH]; intros prev cur d post Hno Hd.
  - change (prev_after [] prev) with prev in Hd. simpl.
    assert (Hne : exists x r, d ++ post = x :: r).
    { destruct Hd as [->|(-> & _)]; simpl; eauto. }
    destruct Hne as (x & r & Hxr).
    rewrite Hxr, split_loop_cons, <- Hxr, (regex_at_delimiter _ _ _ Hd).
    now rewrite app_nil_r.
  - change ((c :: a) ++ d ++ post) with (c :: (a ++ d ++ post)).
    rewrite split_loop_cons.
    assert (H0 : PAGE_DELIMITER_REGEX prev (c :: (a ++ d ++ post)) = None)
      by (apply (Hno [] (c :: a) eq_refl); discriminate).
    rewrite H0, (IH (Some c) (c :: cur) d post).
    + simpl. rewrite <- app_assoc.
      now rewrite <- (prev_after_cons c (a ++ d) prev).
    + intros x y Hs Hy. rewrite <- (prev_after_cons c x prev).
      apply Hno; [|assumption]. simpl. now f_equal.
    + rewrite <- (prev_after_cons c a prev). exact Hd.
Qed.

Lemma split_loop_unmatched s :
  forall prev cur, unmatched prev s -> split_loop prev cur s = [rev cur ++ s].
Proof.
  induction s as [|c s IH]; intros prev cur H.
  - rewrite split_loop_nil. now rewrite app_nil_r.
  - assert (H0 : PAGE_DELIMITER_REGEX prev (c :: s) = None)
      by (apply (H [] (c :: s) eq_refl); discriminate).
    rewrite split_loop_cons, H0.
    rewrite (IH (Some c) (c :: cur)); [|now apply unmatched_tail with prev].
    simpl. now rewrite <- app_assoc.
Qed.

Lemma unmatched_line_start p p' s :
  line_start p = line_start p' \/ line_start p = false ->
  unmatched p' s -> unmatched p s.
Proof.
  intros Hp H x y Hs Hy. specialize (H x y Hs Hy).
  destruct x as [|c x].
  - change (prev_after [] p) with p.
    change (prev_after [] p') with p' in H.
    destruct Hp as [Hp|Hp].
    + now rewrite (regex_line_start p p' y Hp).
    + now apply regex_not_line_start with p'.
  - rewrite prev_after_cons in *. exact H.
Qed.

Lemma app_snoc_split (x y a : text) z :
  a ++ [z] = x ++ y -> y <> [] ->
  exists y', y = y' ++ [z] /\ a = x ++ y'.
Proof.
  intros H Hy. destruct y as [|w y0] using rev_ind; [congruence|].
  rewrite app_assoc in H. apply app_inj_tail in H as [-> ->].
  now exists y0.
Qed.

Lemma prev_after_token p : prev_after PAGE_TOKEN p = Some 45%N.
Proof. reflexivity. Qed.

Lemma trim_LF_left b : trim (LF :: b) = trim b.
Proof. reflexivity. Qed.

Lemma trim_LF_right a : trim (a ++ [LF]) = trim a.
Proof.
  unfold trim, trimEnd.
  destruct (trimStart_spec a) as (ws & Ha & Hws).
  remember (trimStart a) as ta eqn:Eta.
  rewrite Ha, <- app_assoc, (trimStart_blank_app _ _ Hws).
  destruct ta as [|c r].
  - reflexivity.
  - symmetry in Eta. apply trimStart_head in Eta.
    simpl. rewrite Eta. simpl. rewrite rev_app_distr. reflexivity.
Qed.

(** Between two texts without delimiters, a form feed and a token line
    cut at the same place. *)
Lemma split_regex_form_feed a b :
  split_regex a = [a] -> split_regex b = [b] ->
  split_regex (a ++ [FF] ++ b) = [a; b].
Proof.
  unfold split_regex. intros Ha Hb.
  apply split_single_unmatched in Ha. apply split_single_unmatched in Hb.
  rewrite split_loop_unmatched_then.
  - simpl. f_equal. rewrite split_loop_unmatched; [reflexivity|].
    apply unmatched_line_start with (p' := None); [|assumption].
    right. rewrite prev_after_app. reflexivity.
  - intros x y Hs Hy. apply regex_none_extend; [assumption| |now apply Ha].
    intros Hin. now destruct (token_chars FF Hin).
  - now left.
Qed.

Lemma split_regex_token_line a b :
  split_regex a = [a] -> split_regex b = [b] ->
  split_regex (a ++ [LF] ++ PAGE_TOKEN ++ [LF] ++ b) = [a ++ [LF]; [LF] ++ b].
Proof.
  unfold split_regex. intros Ha Hb.
  apply split_single_unmatched in Ha. apply split_single_unmatched in Hb.
  replace (a ++ [LF] ++ PAGE_TOKEN ++ [LF] ++ b)
    with ((a ++ [LF]) ++ PAGE_TOKEN ++ ([LF] ++ b))
    by now rewrite <- app_assoc.
  assert (Hlf : ~ In LF PAGE_TOKEN).
  { intros Hin. now destruct (token_chars LF Hin). }
  rewrite split_loop_unmatched_then.
  - rewrite (prev_after_app (a ++ [LF]) PAGE_TOKEN None), prev_after_token.
    simpl rev. simpl app at 1. f_equal.
    rewrite split_loop_unmatched; [reflexivity|].
    intros x y Hs Hy. destruct x as [|c x].
    + simpl in Hs. subst y. reflexivity.
    + simpl in Hs. inversion Hs; subst c b.
      rewrite prev_after_cons.
      specialize (Hb x y eq_refl Hy).
      destruct x as [|c x].
      * rewrite (regex_line_start (Some LF) None); [exact Hb|reflexivity].
      * rewrite prev_after_cons. rewrite prev_after_cons in Hb. exact Hb.
  - intros x y Hs Hy.
    destruct (app_snoc_split x y a LF Hs Hy) as (y' & -> & ->).
    destruct y' as [|c y'].
    + unfold PAGE_DELIMITER_REGEX, match_token_line.
      destruct (line_start (prev_after x None)); reflexivity.
    + rewrite <- app_assoc.
      change ([LF] ++ PAGE_TOKEN ++ [LF] ++ b) with (LF :: (PAGE_TOKEN ++ [LF] ++ b)).
      apply regex_none_extend; [discriminate|assumption|].
      apply Ha; [reflexivity|discriminate].
  - right. split; [reflexivity|]. split; [|reflexivity].
    rewrite prev_after_app. reflexivity.
Qed.

End Interchangeable.

(** C5: a token line and a form feed are interchangeable delimiters.
    ["A\fB"] and ["A\n---page---\nB"] (with LF or CRLF line ends) both
    give two pages with the same trimmed contents; and so do any two
    texts [a] and [b] without delimiters of their own, joined by either
    delimiter. *)
Theorem form_feed_and_token_interchangeable :
  (splitByPageDelimiters (lit "A" ++ [FF] ++ lit "B") = [lit "A"; lit "B"] /\
   splitByPageDelimiters (lit "A" ++ [LF] ++ lit "---page---" ++ [LF] ++ lit "B")
   = [lit "A" ++ [LF]; [LF] ++ lit "B"] /\
   splitByPageDelimiters
     (lit "A" ++ [CR; LF] ++ lit "---page---" ++ [CR; LF] ++ lit "B")
   = [lit "A" ++ [LF]; [LF] ++ lit "B"] /\
   map trim (splitByPageDelimiters (lit "A" ++ [FF] ++ lit "B"))
   = map trim (splitByPageDelimiters
                 (lit "A" ++ [LF] ++ lit "---page---" ++ [LF] ++ lit "B"))) /\
  (forall a b,
      ~ In CR a -> ~ In CR b ->
      split_regex a = [a] -> split_regex b = [b] ->
      has_content b = true ->
      splitByPageDelimiters (a ++ [FF] ++ b) = [a; b] /\
      splitByPageDelimiters (a ++ [LF] ++ PAGE_TOKEN ++ [LF] ++ b)
      = [a ++ [LF]; [LF] ++ b] /\
      map trim (splitByPageDelimiters (a ++ [FF] ++ b))
      = map trim (splitByPageDelimiters (a ++ [LF] ++ PAGE_TOKEN ++ [LF] ++ b))).
Proof.
  split.
  - split; [reflexivity|]. split; [reflexivity|]. split; reflexivity.
  - intros a b Hca Hcb Ha Hb Hcontent.
    assert (Hff : splitByPageDelimiters (a ++ [FF] ++ b) = [a; b]).
    { rewrite (splitByPageDelimiters_filter (a ++ [FF] ++ b) a [b]).
      - simpl. now rewrite Hcontent.
      - rewrite replace_crlf_no_CR; [now apply split_regex_form_feed|].
        intros Hin. rewrite !in_app_iff in Hin.
        destruct Hin as [Hin|[Hin|Hin]]; [now apply Hca| |now apply Hcb].
        destruct Hin as [Hin|[]]. now vm_compute in Hin. }
    assert (Htok : splitByPageDelimiters (a ++ [LF] ++ PAGE_TOKEN ++ [LF] ++ b)
                   = [a ++ [LF]; [LF] ++ b]).
    { rewrite (splitByPageDelimiters_filter _ (a ++ [LF]) [[LF] ++ b]).
      - simpl. now rewrite Hcontent.
      - rewrite replace_crlf_no_CR; [now apply split_regex_token_line|].
        intros Hin. rewrite !in_app_iff in Hin.
        destruct Hin as [Hin|[Hin|[Hin|[Hin|Hin]]]];
          [now apply Hca| | | |now apply Hcb].
        + destruct Hin as [Hin|[]]. now vm_compute in Hin.
        + destruct (token_chars CR Hin) as [Hlt _]. discriminate.
        + destruct Hin as [Hin|[]]. now vm_compute in Hin. }
    split; [exact Hff|]. split; [exact Htok|].
    rewrite Hff, Htok. simpl map.
    now rewrite trim_LF_right, (trim_LF_left b).
Qed.

Lemma form_feed_and_token_interchangeable_witness :
  let a := lit "# Title" in
  let b := lit "Body text" ++ [LF] in
  splitByPageDelimiters (a ++ [FF] ++ b) = [a; b] /\
  splitByPageDelimiters (a ++ [LF] ++ PAGE_TOKEN ++ [LF] ++ b)
  = [a ++ [LF]; [LF] ++ b] /\
  map trim (splitByPageDelimiters (a ++ [FF] ++ b))
  = map trim (splitByPageDelimiters (a ++ [LF] ++ PAGE_TOKEN ++ [LF] ++ b)).
Proof.
  intros a b.
  apply (proj2 form_feed_and_token_interchangeable a b).
  - intros H. vm_compute in H. repeat (destruct H as [H|H]; [discriminate|]).
    exact H.
  - intros H. vm_compute in H. repeat (destruct H as [H|H]; [discriminate|]).
    exact H.
  - reflexivity.
  - reflexivity.
  - reflexivity.
Defined.

(** ** The layout stylesheet *)

(** Comparisons of closed rationals. *)
Ltac q_closed := vm_compute; first [reflexivity | discriminate].

Section Stylesheet.

Local Open Scope string_scope.

Lemma full_page_box_content ps r :
  full_page_box ps r ->
  content_width r = Some (width ps - 2 * margin ps)%Q /\
  content_height r = Some (height ps - 2 * margin ps)%Q.
Proof.
  intros (Hw & Hh & Hp). unfold content_width, content_height.
  now rewrite Hw, Hh, Hp.
Qed.

(** The sheet sizes every element by its border box and has three
    [.page] rule sets.  Those for print and for the screen make the page
    element the full physical page with the margin as padding.  The
    base one is sized by the content lengths and has no [height]. *)
Lemma page_rule_sets ps :
  border_box_sizing (generatePrintStyles ps) = true /\
  exists base print screen,
    rule_sets ".page" (generatePrintStyles ps)
    = [(None, base); (Some "print", print); (Some "screen", screen)] /\
    full_page_box ps print /\
    full_page_box ps screen /\
    outer_width base = Some (width ps - margin ps * 2)%Q /\
    outer_height base = None /\
    declared_mm "min-height" base = Some (height ps - margin ps * 2)%Q /\
    padding_mm base = Some (margin ps).
Proof.
  split; [reflexivity|].
  do 3 eexists. split; [reflexivity|].
  repeat split.
Qed.

Lemma media_page_rules_content_box ps q r :
  In (Some q, r) (rule_sets ".page" (generatePrintStyles ps)) ->
  full_page_box ps r /\
  content_width r = Some (width ps - 2 * margin ps)%Q /\
  content_height r = Some (height ps - 2 * margin ps)%Q.
Proof.
  intros H.
  assert (Hf : full_page_box ps r).
  { simpl in H. destruct H as [H|[H|[H|[]]]]; inversion H; subst;
      repeat split. }
  split; [exact Hf|]. now apply full_page_box_content.
Qed.

End Stylesheet.

(** C2, on the A4 preset: the sheet is valid input and uses border-box
    sizing, but its base [.page] rule set declares a width of
    [210 - 20*2 = 170] mm and no height, so its outer box is not the
    210 mm by 297 mm page and its content box is 130 mm wide; not every
    [.page] rule set gives the full page. *)
Theorem base_page_rule_is_content_sized :
  let A4 := {| width := 210; height := 297; margin := 20 |} in
  valid_PageSize A4 /\
  border_box_sizing (generatePrintStyles A4) = true /\
  (exists base w cw,
      In (None, base) (rule_sets ".page" (generatePrintStyles A4)) /\
      outer_width base = Some w /\ (w == 170)%Q /\
      outer_height base = None /\
      padding_mm base = Some 20%Q /\
      content_width base = Some cw /\ (cw == 130)%Q) /\
  ~ Forall (fun cr => full_page_box A4 (snd cr))
           (rule_sets ".page" (generatePrintStyles A4)).
Proof.
  intros A4. split; [|split; [|split]].
  - unfold valid_PageSize. repeat split; q_closed.
  - reflexivity.
  - do 3 eexists. split; [left; reflexivity|].
    repeat split; reflexivity.
  - intros H. inversion H as [|x l (Hw & Hh & Hp) Hl]; subst.
    discriminate Hh.
Qed.

(** ** The preview scale *)

Section PreviewScale.

Local Open Scope Q_scope.

Lemma MM_TO_PX_pos : 0 < MM_TO_PX.
Proof. reflexivity. Qed.

Lemma updateScale_le_1 w vw : updateScale w vw <= 1.
Proof. unfold updateScale. apply Q.le_min_r. Qed.

Lemma updateScale_monotone w vw1 vw2 :
  0 < w -> vw1 <= vw2 -> updateScale w vw1 <= updateScale w vw2.
Proof.
  intros Hw Hvw. unfold updateScale.
  apply Q.min_le_compat_r.
  assert (Hpx : 0 < w * MM_TO_PX).
  { apply Qmult_lt_0_compat; [exact Hw|exact MM_TO_PX_pos]. }
  unfold Qdiv. apply Qmult_le_compat_r.
  - unfold Qminus. apply Qplus_le_compat; [exact Hvw|apply Qle_refl].
  - apply Qlt_le_weak. now apply Qinv_lt_0_compat.
Qed.

End PreviewScale.

(** C6: for a page of positive width, the scale the script of the
    assembled document stores is [min((innerWidth - 40) / (width *
    3.7795275591), 1)]; it never exceeds 1 and does not grow when the
    window gets narrower. *)
Theorem preview_scale_fits_width :
  forall content (ps : PageSize),
    (0 < width ps)%Q ->
    forall vw1 vw2 : Q,
      let doc := generateIframeDocument content ps in
      preview_scale doc vw1
      = Qmin ((vw1 - 40) / (width ps * (37795275591 # 10000000000))) 1 /\
      (preview_scale doc vw1 <= 1)%Q /\
      ((vw1 <= vw2)%Q -> (preview_scale doc vw1 <= preview_scale doc vw2)%Q).
Proof.
  intros content ps Hw vw1 vw2 doc. split; [reflexivity|]. split.
  - apply updateScale_le_1.
  - intros Hvw. now apply updateScale_monotone.
Qed.

(** An A4 page in windows 400 and 900 pixels wide: the narrower window
    has the smaller scale, and neither exceeds 1. *)
Lemma preview_scale_fits_width_witness :
  let ps := {| width := 210; height := 297; margin := 20 |} in
  let doc := generateIframeDocument [] ps in
  (0 < width ps)%Q /\
  (400 <= 900)%Q /\
  preview_scale doc 400
  = Qmin ((400 - 40) / (width ps * (37795275591 # 10000000000))) 1 /\
  (preview_scale doc 400 <= 1)%Q /\
  (preview_scale doc 400 <= preview_scale doc 900)%Q.
Proof.
  intros ps doc.
  assert (Hw : (0 < width ps)%Q) by reflexivity.
  assert (Hv : (400 <= 900)%Q) by (vm_compute; discriminate).
  destruct (preview_scale_fits_width [] ps Hw 400 900) as (He & Hle & Hmono).
  split; [exact Hw|]. split; [exact Hv|]. split; [exact He|].
  split; [exact Hle|]. exact (Hmono Hv).
Defined.

(** ** The export hook *)

Section CaptureLoop.

Context {Element Canvas : Type}.
Variable W : @World Element Canvas.
Variable A : @HookArgs Element.

Let w : Q := width (pageSize (options A)).
Let h : Q := height (pageSize (options A)).

(** *** The jsPDF document *)

Lemma pdf_pages_call c pdf : pdf_pages (call c pdf) = apply_call (pdf_pages pdf) c.
Proof. unfold pdf_pages, call. simpl. now rewrite fold_left_app. Qed.

Lemma on_last_page_snoc img l p :
  on_last_page img (l ++ [p])
  = l ++ [{| page_format := page_format p;
             page_images := page_images p ++ [img] |}].
Proof.
  induction l as [|q l IH]; [reflexivity|].
  simpl. rewrite IH. destruct (l ++ [p]) eqn:E; [|reflexivity].
  now destruct l.
Qed.

Lemma embed_all_later_pages images :
  forall i pdf,
    pdf_pages (embed_all w h (S i) images pdf)
    = pdf_pages pdf ++ map (full_bleed_page w h) images.
Proof.
  induction images as [|d ds IH]; intros i pdf; simpl embed_all.
  - simpl. now rewrite app_nil_r.
  - rewrite IH. unfold embed. simpl Nat.ltb. cbv iota.
    rewrite pdf_pages_call. simpl apply_call.
    rewrite pdf_pages_call. simpl apply_call.
    rewrite on_last_page_snoc. simpl. now rewrite <- app_assoc.
Qed.

Lemma embed_all_later_calls images :
  forall i pdf,
    calls (embed_all w h (S i) images pdf)
    = calls pdf ++ flat_map (fun d => [addPage (w, h);
                                       addImage d "PNG" 0 0 w h]) images.
Proof.
  induction images as [|d ds IH]; intros i pdf; simpl embed_all.
  - simpl. now rewrite app_nil_r.
  - rewrite IH. unfold embed. simpl. now rewrite <- !app_assoc.
Qed.

Lemma embed_all_fields images :
  forall i pdf,
    orientation (embed_all w h i images pdf) = orientation pdf /\
    pdf_unit (embed_all w h i images pdf) = pdf_unit pdf /\
    format (embed_all w h i images pdf) = format pdf.
Proof.
  induction images as [|d ds IH]; intros i pdf; simpl; [auto|].
  destruct (IH (S i) (embed w h i d pdf)) as (-> & -> & ->).
  unfold embed. destruct (0 <? i); auto.
Qed.

(** The document built from a fresh one: one full-bleed page per
    capture, in order. *)
Lemma embed_all_new o u images :
  let pdf := embed_all w h 0 images (new_jsPDF o u (w, h)) in
  images <> [] ->
  pdf_pages pdf = map (full_bleed_page w h) images /\
  calls pdf = expected_calls w h images /\
  orientation pdf = o /\ pdf_unit pdf = u /\ format pdf = (w, h).
Proof.
  intros pdf Hne. subst pdf.
  destruct images as [|d ds]; [congruence|].
  simpl embed_all. split; [|split].
  - rewrite embed_all_later_pages. reflexivity.
  - rewrite embed_all_later_calls. reflexivity.
  - destruct (embed_all_fields ds 1 (embed w h 0 d (new_jsPDF o u (w, h))))
      as (-> & -> & ->).
    auto.
Qed.

(** *** The capture loop *)

Lemma render_pages_ok pages :
  forall images i pdf st,
    map (capture W) pages = map Some images ->
    render_pages W w h pages i pdf st = (Normal (embed_all w h i images pdf), st).
Proof.
  induction pages as [|page rest IH]; intros images i pdf st H.
  - destruct images; [reflexivity|discriminate].
  - destruct images as [|d ds]; [discriminate|].
    simpl in H. inversion H as [[Hd Hds]].
    unfold capture in Hd.
    simpl render_pages. unfold bind, await.
    destruct (html2canvas W page html2canvas_options) as [canvas|e];
      [|discriminate].
    inversion Hd; subst d. simpl embed_all. now apply IH.
Qed.

Lemma render_pages_fails done :
  forall images bad rest e i pdf st,
    map (capture W) done = map Some images ->
    html2canvas W bad html2canvas_options = Throw e ->
    render_pages W w h (done ++ bad :: rest) i pdf st = (Throw e, st).
Proof.
  induction done as [|page done' IH]; intros images bad rest e i pdf st H Hbad.
  - simpl. unfold bind, await. now rewrite Hbad.
  - destruct images as [|d ds]; [discriminate|].
    simpl in H. inversion H as [[Hd Hds]].
    unfold capture in Hd.
    simpl. unfold bind, await.
    destruct (html2canvas W page html2canvas_options) as [canvas|e'];
      [|discriminate].
    now apply IH with ds.
Qed.


(** Either every page is captured, or some first page is not. *)
Lemma captures_or_failure (pages : list Element) :
  (exists images, map (capture W) pages = map Some images) \/
  (exists done images bad rest e,
      pages = done ++ bad :: rest /\
      map (capture W) done = map Some images /\
      html2canvas W bad html2canvas_options = Throw e).
Proof.
  induction pages as [|page rest IH].
  - left. now exists [].
  - destruct (html2canvas W page html2canvas_options) as [canvas|e] eqn:E.
    + destruct IH as [(images & Hi)|(done & images & bad & rest' & e & -> & Hd & Hb)].
      * left. exists (toDataURL W canvas "image/png" :: images).
        simpl. unfold capture at 1. now rewrite E, Hi.
      * right. exists (page :: done), (toDataURL W canvas "image/png" :: images),
               bad, rest', e.
        repeat split; [|assumption].
        simpl. unfold capture at 1. now rewrite E, Hd.
    + right. exists [], [], page, rest, e. now repeat split.
Qed.

End CaptureLoop.

Section ExportOutcome.

Context {Element Canvas : Type}.
Variable W : @World Element Canvas.
Variable A : @HookArgs Element.

Let w : Q := width (pageSize (options A)).
Let h : Q := height (pageSize (options A)).

Ltac unfold_export :=
  unfold exportPdf, try_catch, try_block, catch_block, bind, ret, set,
    await, throw, setError, setIsExporting, failed, succeeded, reported.

Lemma exportPdf_inaccessible st :
  iframe_body (iframeRef A) = Normal None ->
  exportPdf W A st
  = (Normal None,
     {| isExporting := isExporting st;
        error := Some "Cannot access iframe content"%string |}).
Proof. intros H. unfold_export. now rewrite H. Qed.

Lemma exportPdf_import_fails st bd e :
  iframe_body (iframeRef A) = Normal (Some bd) ->
  import_modules W = Throw e ->
  exportPdf W A st = (Normal None, failed (reported e)).
Proof. intros H Hi. unfold_export. rewrite H, Hi. now destruct e. Qed.

Lemma exportPdf_no_pages st bd u :
  iframe_body (iframeRef A) = Normal (Some bd) ->
  import_modules W = Normal u ->
  pageElements bd = [] ->
  exportPdf W A st = (Normal None, failed "No pages found in document").
Proof. intros H Hi Hp. unfold_export. now rewrite H, Hi, Hp. Qed.

Lemma exportPdf_capture_fails st bd u done images bad rest e :
  iframe_body (iframeRef A) = Normal (Some bd) ->
  import_modules W = Normal u ->
  pageElements bd = done ++ bad :: rest ->
  map (capture W) done = map Some images ->
  html2canvas W bad html2canvas_options = Throw e ->
  exportPdf W A st = (Normal None, failed (reported e)).
Proof.
  intros H Hi Hp Hd Hb. unfold_export. rewrite H, Hi, Hp.
  assert (Hlen : (length (done ++ bad :: rest) =? 0) = false).
  { rewrite length_app. simpl. apply Nat.eqb_neq. lia. }
  rewrite Hlen.
  rewrite (render_pages_fails W A done images bad rest e _ _ _ Hd Hb).
  now destruct e.
Qed.

(** With every page captured, the outcome is the callback's. *)
Lemma exportPdf_captured st bd u images :
  iframe_body (iframeRef A) = Normal (Some bd) ->
  import_modules W = Normal u ->
  pageElements bd <> [] ->
  map (capture W) (pageElements bd) = map Some images ->
  let blob := PdfBlob (built_pdf A images) in
  exportPdf W A st
  = match onExport A with
    | None => (Normal (Some blob), succeeded)
    | Some callback =>
        match callback blob (export_filename (options A)) with
        | Normal _ => (Normal (Some blob), succeeded)
        | Throw e => (Normal None, failed (reported e))
        end
    end.
Proof.
  intros H Hi Hne Hc blob. unfold_export. rewrite H, Hi.
  assert (Hlen : (length (pageElements bd) =? 0) = false).
  { apply Nat.eqb_neq. destruct (pageElements bd); [congruence|discriminate]. }
  rewrite Hlen.
  rewrite (render_pages_ok W A (pageElements bd) images _ _ _ Hc).
  subst blob. unfold built_pdf. cbv zeta. fold w h.
  destruct (onExport A) as [callback|]; [|reflexivity].
  destruct (callback _ _) as [[]|e]; [reflexivity|now destruct e].
Qed.

(** When the guard itself throws, the promise is rejected with what was
    thrown and the hook state is not touched. *)
Lemma exportPdf_guard_throws st blocked :
  iframe_body (iframeRef A) = Throw blocked ->
  exportPdf W A st = (Throw blocked, st).
Proof. intros H. unfold_export. now rewrite H. Qed.


End ExportOutcome.

Section ExportFacts.

Lemma Qgtb_spec a b : Qgtb a b = true <-> (b < a)%Q.
Proof.
  unfold Qgtb. rewrite negb_true_iff.
  split.
  - intros H. apply Qnot_le_lt. intros Hle.
    apply Qle_bool_iff in Hle. congruence.
  - intros H. destruct (Qle_bool a b) eqn:E; [|reflexivity].
    apply Qle_bool_iff in E. exfalso. now apply (Qlt_not_le b a).
Qed.


End ExportFacts.

(** C1, as stated, fails: with the iframe mounted, two pages found and
    both captured, a callback that throws makes [exportPdf] resolve to
    null, not to the blob. *)
Lemma callback_failure_resolves_to_null :
  iframe_body (iframeRef Demo.args_upload_fails)
  = Normal (Some {| pageElements := [0; 1] |}) /\
  import_modules Demo.world = Normal tt /\
  map (capture Demo.world) [0; 1] = map Some ["A.png"; "B.png"]%string /\
  exportPdf Demo.world Demo.args_upload_fails initial
  = (Normal None, failed "Upload failed").
Proof. repeat split. Qed.

(** C1, amended: when the iframe is accessible, pages are found and all
    are captured, [exportPdf] resolves to the blob if no callback was
    given or the callback completes; if the callback throws it resolves
    to null and reports the callback's error. *)
Theorem exportPdf_returns_blob_unless_callback_throws :
  forall {Element Canvas : Type} (W : @World Element Canvas) (A : HookArgs)
         st bd u images,
    iframe_body (iframeRef A) = Normal (Some bd) ->
    import_modules W = Normal u ->
    pageElements bd <> [] ->
    map (capture W) (pageElements bd) = map Some images ->
    let blob := PdfBlob (built_pdf A images) in
    let name := export_filename (options A) in
    (onExport A = None ->
     exportPdf W A st = (Normal (Some blob), succeeded)) /\
    (forall callback u',
        onExport A = Some callback -> callback blob name = Normal u' ->
        exportPdf W A st = (Normal (Some blob), succeeded)) /\
    (forall callback e,
        onExport A = Some callback -> callback blob name = Throw e ->
        exportPdf W A st = (Normal None, failed (reported e))).
Proof.
  intros Element Canvas W A st bd u images Hb Hi Hne Hc blob name.
  pose proof (exportPdf_captured W A st bd u images Hb Hi Hne Hc) as H.
  cbv zeta in H. fold blob name in H.
  split; [|split].
  - intros Hn. now rewrite Hn in H.
  - intros callback u' Hs Hcb. now rewrite Hs, Hcb in H.
  - intros callback e Hs Hcb. now rewrite Hs, Hcb in H.
Qed.

Lemma exportPdf_returns_blob_unless_callback_throws_witness :
  exportPdf Demo.world Demo.args initial
  = (Normal (Some (PdfBlob (built_pdf Demo.args ["A.png"; "B.png"]%string))),
     succeeded).
Proof.
  refine (proj1 (@exportPdf_returns_blob_unless_callback_throws
                   nat nat Demo.world Demo.args initial
                   {| pageElements := [0; 1] |} tt ["A.png"; "B.png"]%string
                   eq_refl eq_refl _ eq_refl) eq_refl).
  discriminate.
Defined.

(** C4: from a surface with N >= 1 page elements, all captured, the
    export builds a document with exactly N pages in source order: it is
    created in millimetres with format [width, height], landscape exactly
    when [width > height]; a page of that size is added before every
    capture but the first; each capture is placed at (0, 0) over the
    whole [width] by [height] box.  That document is the blob
    [exportPdf] resolves to, unless the callback it was handed to
    threw. *)
Theorem export_has_one_page_per_page_element :
  forall {Element Canvas : Type} (W : @World Element Canvas) (A : HookArgs)
         st bd u images,
    iframe_body (iframeRef A) = Normal (Some bd) ->
    import_modules W = Normal u ->
    pageElements bd <> [] ->
    map (capture W) (pageElements bd) = map Some images ->
    let width := width (pageSize (options A)) in
    let height := height (pageSize (options A)) in
    let pdf := built_pdf A images in
    (fst (exportPdf W A st) = Normal (Some (PdfBlob pdf)) \/
     exists callback e,
       onExport A = Some callback /\
       callback (PdfBlob pdf) (export_filename (options A)) = Throw e) /\
    length (pdf_pages pdf) = length (pageElements bd) /\
    pdf_pages pdf = map (full_bleed_page width height) images /\
    calls pdf = expected_calls width height images /\
    format pdf = (width, height) /\
    pdf_unit pdf = "mm"%string /\
    (orientation pdf = landscape <-> (height < width)%Q) /\
    (orientation pdf = portrait <-> (width <= height)%Q).
Proof.
  intros Element Canvas W A st bd u images Hb Hi Hne Hc width height pdf.
  assert (Himg : images <> []).
  { intros ->. destruct (pageElements bd); [congruence|discriminate]. }
  destruct (embed_all_new A (if Qgtb width height then landscape else portrait)
                          "mm"%string images Himg)
    as (Hpages & Hcalls & Ho & Hu & Hf).
  fold width height in Hpages, Hcalls, Ho, Hu, Hf.
  change (embed_all width height 0 images
            (new_jsPDF (if Qgtb width height then landscape else portrait)
                       "mm" (width, height))) with pdf in *.
  split; [|split; [|split; [|split; [|split; [|split; [|split]]]]]].
  - pose proof (exportPdf_captured W A st bd u images Hb Hi Hne Hc) as H.
    cbv zeta in H. fold pdf in H.
    destruct (onExport A) as [callback|]; [|left; now rewrite H].
    destruct (callback (PdfBlob pdf) (export_filename (options A))) as [[]|e] eqn:E.
    + left. now rewrite H.
    + right. now exists callback, e.
  - rewrite Hpages, length_map.
    apply (f_equal (@length _)) in Hc. now rewrite !length_map in Hc.
  - exact Hpages.
  - exact Hcalls.
  - exact Hf.
  - exact Hu.
  - rewrite Ho. rewrite <- Qgtb_spec.
    destruct (Qgtb width height); split; congruence.
  - rewrite Ho. destruct (Qgtb width height) eqn:E.
    + apply Qgtb_spec in E. split; [discriminate|].
      intros Hle. exfalso. now apply (Qlt_not_le height width).
    + split; [intros _|reflexivity].
      apply Qnot_lt_le. intros Hlt. apply Qgtb_spec in Hlt. congruence.
Qed.

(** Two slides of 254 mm by 143 mm: a landscape document of two pages. *)
Lemma export_has_one_page_per_page_element_witness :
  let pdf := built_pdf Demo.args ["A.png"; "B.png"]%string in
  length (pdf_pages pdf) = 2 /\
  pdf_pages pdf
  = [full_bleed_page 254 143 "A.png"; full_bleed_page 254 143 "B.png"] /\
  calls pdf
  = [addImage "A.png" "PNG" 0 0 254 143;
     addPage (254%Q, 143%Q);
     addImage "B.png" "PNG" 0 0 254 143].
Proof.
  intros pdf.
  destruct (@export_has_one_page_per_page_element
              nat nat Demo.world Demo.args initial
              {| pageElements := [0; 1] |} tt ["A.png"; "B.png"]%string
              eq_refl eq_refl ltac:(discriminate) eq_refl)
    as (_ & Hlen & Hpages & Hcalls & _).
  split; [exact Hlen|]. split; [exact Hpages|exact Hcalls].
Defined.




(** ** Overlapping invocations *)

Section Coroutine.

Context {Element Canvas : Type}.
Variable W : @World Element Canvas.
Variable A : @HookArgs Element.

Let w : Q := width (pageSize (options A)).
Let h : Q := height (pageSize (options A)).

(** *** One invocation alone is the sequential function *)

Lemma run_alone_settled fuel r st :
  run_alone W A fuel (Settled r) st = (Settled r, st).
Proof. destruct fuel; reflexivity. Qed.

Lemma run_alone_resume fuel k st :
  settled k = false ->
  run_alone W A (S fuel) k st = run_step W A fuel (resume W A k st).
Proof.
  intros Hk. unfold run_step.
  destruct k as [bd|page rest i pdf|blob|r]; try discriminate;
    cbn [run_alone];
    match goal with
    | |- context [resume W A ?k st] =>
        generalize (resume W A k st); intros [[k' st'] evs]; reflexivity
    end.
Qed.

Lemma run_loop_ok pages :
  forall images i pdf st fuel,
    map (capture W) pages = map Some images ->
    run_step W A (length pages + fuel) (loop_head A pages i pdf st)
    = run_step W A fuel (after_loop A (embed_all w h i images pdf) st).
Proof.
  induction pages as [|page rest IH]; intros images i pdf st fuel H.
  - destruct images; [reflexivity|discriminate].
  - destruct images as [|d ds]; [discriminate|].
    simpl in H. inversion H as [[Hd Hds]]. unfold capture in Hd.
    unfold run_step. simpl.
    destruct (html2canvas W page html2canvas_options) as [canvas|e];
      [|discriminate].
    inversion Hd; subst d.
    destruct (loop_head A rest (S i) _ st) as [[k' st'] evs] eqn:E.
    specialize (IH ds (S i) (embed w h i (toDataURL W canvas "image/png") pdf)
                   st fuel Hds).
    unfold run_step in IH. fold w h in E. rewrite E in IH. exact IH.
Qed.

Lemma run_loop_fails done :
  forall images bad rest e i pdf st fuel,
    map (capture W) done = map Some images ->
    html2canvas W bad html2canvas_options = Throw e ->
    run_step W A (S (length done) + fuel) (loop_head A (done ++ bad :: rest) i pdf st)
    = (Settled (Normal None), failed (reported e)).
Proof.
  induction done as [|page done' IH]; intros images bad rest e i pdf st fuel H Hb.
  - unfold run_step. simpl. rewrite Hb. unfold caught, catch_block.
    simpl. rewrite run_alone_settled. now destruct e.
  - destruct images as [|d ds]; [discriminate|].
    simpl in H. inversion H as [[Hd Hds]]. unfold capture in Hd.
    unfold run_step. simpl.
    destruct (html2canvas W page html2canvas_options) as [canvas|e'];
      [|discriminate].
    destruct (loop_head A (done' ++ bad :: rest) (S i) _ st)
      as [[k' st'] evs] eqn:E.
    specialize (IH ds bad rest e (S i)
                   (embed w h i (toDataURL W canvas "image/png") pdf)
                   st fuel Hds Hb).
    unfold run_step in IH. fold w h in E. rewrite E in IH. exact IH.
Qed.

(** Resumed until it settles, with no other invocation around, the
    coroutine ends as [exportPdf] does. *)
Lemma run_alone_exportPdf st :
  exists fuel,
    run_step W A fuel (start A st)
    = (Settled (fst (exportPdf W A st)), snd (exportPdf W A st)).
Proof.
  unfold start.
  destruct (iframe_body (iframeRef A)) as [[bd|]|blocked] eqn:Hb.
  - destruct (import_modules W) as [u|e] eqn:Hi.
    + destruct (pageElements bd) as [|p ps] eqn:Hp.
      * exists 1. rewrite (exportPdf_no_pages W A st bd u Hb Hi Hp).
        unfold run_step. simpl. now rewrite Hi, Hp.
      * assert (Hne : pageElements bd <> []) by (rewrite Hp; discriminate).
        assert (Hlen : (length (pageElements bd) =? 0) = false).
        { rewrite Hp. reflexivity. }
        destruct (captures_or_failure W (pageElements bd))
          as [(images & Hc)|(done & images & bad & rest & e & Hd & Hc & Hbad)].
        -- exists (S (length (pageElements bd) + 1)).
           rewrite (exportPdf_captured W A st bd u images Hb Hi Hne Hc).
           unfold run_step at 1. simpl fst. simpl snd.
           rewrite run_alone_resume by reflexivity.
           simpl resume. rewrite Hi, Hlen.
           rewrite (run_loop_ok (pageElements bd) images _ _ _ _ Hc).
           fold (built_pdf A images).
           unfold after_loop, run_step.
           destruct (onExport A) as [callback|] eqn:Hcb.
           ++ simpl. rewrite Hcb.
              destruct (callback _ _) as [[]|e]; simpl.
              ** reflexivity.
              ** now destruct e.
           ++ reflexivity.
        -- exists (S (S (length done) + 0)).
           rewrite (exportPdf_capture_fails W A st bd u done images bad rest e
                      Hb Hi Hd Hc Hbad).
           unfold run_step at 1. simpl fst. simpl snd.
           rewrite run_alone_resume by reflexivity.
           simpl resume. rewrite Hi, Hlen, Hd.
           now rewrite (run_loop_fails done images bad rest e _ _ _ _ Hc Hbad).
    + exists 1. rewrite (exportPdf_import_fails W A st bd e Hb Hi).
      unfold run_step. simpl. rewrite Hi. now destruct e.
  - exists 0. now rewrite (exportPdf_inaccessible W A st Hb).
  - exists 0. now rewrite (exportPdf_guard_throws W A st blocked Hb).
Qed.

End Coroutine.

Section Reentrancy.

Context {Element Canvas : Type}.
Variable W : @World Element Canvas.
Variable A : @HookArgs Element.

(** *** Steps of one invocation *)

(** [exportPdf] starts without reading [isExporting]: it settles at
    once when the iframe's content is missing or the guard's reads
    throw, and otherwise raises the flag and suspends at the imports. *)
Lemma start_cases st :
  (iframe_body (iframeRef A) = Normal None /\
   start A st
   = (Settled (Normal None),
      setError (Some "Cannot access iframe content"%string) st, [])) \/
  (exists bd,
      iframe_body (iframeRef A) = Normal (Some bd) /\
      start A st
      = (AwaitImports bd, {| isExporting := true; error := None |}, [])) \/
  (exists blocked,
      iframe_body (iframeRef A) = Throw blocked /\
      start A st = (Settled (Throw blocked), st, [])).
Proof.
  unfold start. destruct (iframe_body (iframeRef A)) as [[bd|]|blocked].
  - right. left. now exists bd.
  - now left.
  - right. right. now exists blocked.
Qed.

Lemma loop_head_cases pages i pdf st :
  exists k evs,
    loop_head A pages i pdf st = (k, st, evs) /\ settled k = false \/
    loop_head A pages i pdf st = (k, setIsExporting false st, evs) /\
    settled k = true.
Proof.
  unfold loop_head, after_loop, finish.
  destruct pages as [|page rest].
  - destruct (onExport A).
    + do 2 eexists. left. split; reflexivity.
    + do 2 eexists. right. split; reflexivity.
  - do 2 eexists. left. split; reflexivity.
Qed.

(** A resumed invocation either settles and lowers the flag, or
    suspends again and leaves the hook as it is; a settled one does
    nothing. *)
Lemma resume_cases k st :
  exists k' st' evs,
    resume W A k st = (k', st', evs) /\
    (settled k = true -> k' = k /\ st' = st /\ evs = []) /\
    (settled k = false ->
     (settled k' = true /\ isExporting st' = false) \/
     (settled k' = false /\ st' = st)).
Proof.
  assert (Hcaught : forall e (evs : list (@Event Element)),
             exists k' st',
               caught e st evs = (k', st', evs) /\
               settled k' = true /\ isExporting st' = false).
  { intros e evs. do 2 eexists. split; [reflexivity|]. now split. }
  assert (Hloop : forall pages i pdf,
             exists k' st' evs,
               loop_head A pages i pdf st = (k', st', evs) /\
               ((settled k' = true /\ isExporting st' = false) \/
                (settled k' = false /\ st' = st))).
  { intros pages i pdf.
    destruct (loop_head_cases pages i pdf st) as (k' & evs & [[-> Hk]|[-> Hk]]).
    - exists k', st, evs. split; [reflexivity|]. now right.
    - exists k', (setIsExporting false st), evs. split; [reflexivity|]. now left. }
  destruct k as [bd|page rest i pdf|blob|r]; simpl resume.
  - destruct (import_modules W) as [u|e].
    + destruct (length (pageElements bd) =? 0).
      * destruct (Hcaught (ErrorObject "No pages found in document") [])
          as (k' & st' & -> & Hk & Hf).
        exists k', st', []. split; [reflexivity|]. split; [discriminate|].
        intros _. now left.
      * destruct (Hloop (pageElements bd) 0
                        (new_jsPDF
                           (if Qgtb (width (pageSize (options A)))
                                    (height (pageSize (options A)))
                            then landscape else portrait) "mm"
                           (width (pageSize (options A)),
                            height (pageSize (options A)))))
          as (k' & st' & evs & -> & Hc).
        exists k', st', evs. split; [reflexivity|]. split; [discriminate|].
        intros _. exact Hc.
    + destruct (Hcaught e []) as (k' & st' & -> & Hk & Hf).
      exists k', st', []. split; [reflexivity|]. split; [discriminate|].
      intros _. now left.
  - destruct (html2canvas W page html2canvas_options) as [canvas|e].
    + destruct (Hloop rest (S i)
                      (embed (width (pageSize (options A)))
                             (height (pageSize (options A))) i
                             (toDataURL W canvas "image/png") pdf))
        as (k' & st' & evs & -> & Hc).
      exists k', st', evs. split; [reflexivity|]. split; [discriminate|].
      intros _. exact Hc.
    + destruct (Hcaught e []) as (k' & st' & -> & Hk & Hf).
      exists k', st', []. split; [reflexivity|]. split; [discriminate|].
      intros _. now left.
  - assert (Hfin : exists k' st',
               finish blob st = (k', st', @nil (@Event Element)) /\
               settled k' = true /\ isExporting st' = false).
    { do 2 eexists. split; [reflexivity|]. now split. }
    destruct (onExport A) as [callback|].
    + destruct (callback blob (export_filename (options A))) as [u|e].
      * destruct Hfin as (k' & st' & -> & Hk & Hf).
        exists k', st', []. split; [reflexivity|]. split; [discriminate|].
        intros _. now left.
      * destruct (Hcaught e []) as (k' & st' & -> & Hk & Hf).
        exists k', st', []. split; [reflexivity|]. split; [discriminate|].
        intros _. now left.
    + destruct Hfin as (k' & st' & -> & Hk & Hf).
      exists k', st', []. split; [reflexivity|]. split; [discriminate|].
      intros _. now left.
  - exists (Settled r), st, []. split; [reflexivity|].
    split; [now intros _|discriminate].
Qed.

(** *** Lists *)

Lemma replace_nth_length {X} n (x : X) l : length (replace_nth n x l) = length l.
Proof.
  revert n; induction l as [|y l IH]; intros [|n]; simpl; auto.
Qed.

Lemma replace_nth_same {X} n (x : X) l :
  nth_error l n = Some x -> replace_nth n x l = l.
Proof.
  revert n; induction l as [|y l IH]; intros [|n] H; simpl in *; try congruence.
  f_equal. now apply IH.
Qed.

Lemma nth_error_replace_nth {X} n (x : X) l i :
  nth_error (replace_nth n x l) i
  = if Nat.eqb i n
    then match nth_error l i with Some _ => Some x | None => None end
    else nth_error l i.
Proof.
  revert n i; induction l as [|y l IH]; intros [|n] [|i]; simpl; auto.
  now destruct (i =? n).
Qed.

Lemma Forall_nth_error {X} (P : X -> Prop) l :
  (forall i x, nth_error l i = Some x -> P x) -> Forall P l.
Proof.
  induction l as [|y l IH]; intros H; constructor.
  - apply (H 0 y). reflexivity.
  - apply IH. intros i x Hi. apply (H (S i) x). exact Hi.
Qed.

Lemma rasterizations_app (l1 l2 : list (nat * @Event Element)) :
  rasterizations (l1 ++ l2) = rasterizations l1 ++ rasterizations l2.
Proof. unfold rasterizations. apply flat_map_app. Qed.

Lemma rasterizations_tagged id (evs : list (@Event Element)) :
  Forall (eq id) (rasterizations (map (fun e => (id, e)) evs)).
Proof.
  induction evs as [|e evs IH]; simpl; [constructor|].
  destruct e; simpl; [constructor; [reflexivity|exact IH]|exact IH].
Qed.

Lemma serialized_app ids id news :
  serialized ids -> Forall (fun i => i <= id) ids -> Forall (eq id) news ->
  serialized (ids ++ news).
Proof.
  unfold serialized. intros Hs Hle Hn.
  induction ids as [|i ids IH]; simpl.
  - induction Hn as [|x l Hx Hl IHl]; constructor; [exact IHl|].
    subst x. clear - Hl. induction Hl; constructor; [lia|assumption].
  - inversion Hs; subst. inversion Hle; subst.
    constructor; [now apply IH|].
    apply Forall_app. split; [assumption|].
    eapply Forall_impl; [|exact Hn]. intros a <-. assumption.
Qed.

(** *** The invariant of a caller that heeds the flag *)

Lemma idle_one_in_flight : one_in_flight (@idle Element).
Proof.
  unfold one_in_flight, idle, serialized. simpl.
  split; [constructor|]. split; [intros [|i] k H; discriminate|].
  split; constructor.
Qed.

Lemma invoke_one_in_flight sys :
  one_in_flight sys ->
  isExporting (hook sys) = false ->
  one_in_flight (act W A sys Invoke).
Proof.
  intros (Hidle & Hlast & Hser & Hids) Hflag.
  specialize (Hidle Hflag).
  unfold one_in_flight, act.
  destruct (start_cases (hook sys))
    as [[_ ->]|[(bd & _ & ->)|(blocked & _ & ->)]]; simpl;
    rewrite app_nil_r, length_app; simpl.
  - split; [|split; [|split]].
    + intros _. apply Forall_app. split; [exact Hidle|now constructor].
    + intros i k Hi Hlt.
      rewrite Forall_forall in Hidle. apply Hidle.
      rewrite nth_error_app1 in Hi by lia. eapply nth_error_In; eassumption.
    + exact Hser.
    + eapply Forall_impl; [|exact Hids]. simpl. intros; lia.
  - split; [|split; [|split]].
    + discriminate.
    + intros i k Hi Hlt.
      rewrite Forall_forall in Hidle. apply Hidle.
      rewrite nth_error_app1 in Hi by lia. eapply nth_error_In; eassumption.
    + exact Hser.
    + eapply Forall_impl; [|exact Hids]. simpl. intros; lia.
  - split; [|split; [|split]].
    + intros _. apply Forall_app. split; [exact Hidle|now constructor].
    + intros i k Hi Hlt.
      rewrite Forall_forall in Hidle. apply Hidle.
      rewrite nth_error_app1 in Hi by lia. eapply nth_error_In; eassumption.
    + exact Hser.
    + eapply Forall_impl; [|exact Hids]. simpl. intros; lia.
Qed.

Lemma resume_one_in_flight sys id :
  one_in_flight sys -> one_in_flight (act W A sys (Resume id)).
Proof.
  intros (Hidle & Hlast & Hser & Hids).
  unfold act. destruct (nth_error (tasks sys) id) as [k|] eqn:Hk;
    [|now repeat split].
  assert (Hid : id < length (tasks sys)).
  { apply nth_error_Some. congruence. }
  destruct (resume_cases k (hook sys)) as (k' & st' & evs & -> & Hset & Hun).
  destruct (settled k) eqn:Hsk.
  - destruct (Hset eq_refl) as (-> & -> & ->).
    rewrite (replace_nth_same _ _ _ Hk). simpl. rewrite app_nil_r.
    now repeat split.
  - clear Hset. specialize (Hun eq_refl).
    assert (Hislast : S id = length (tasks sys)).
    { destruct (Nat.eq_dec (S id) (length (tasks sys))) as [E|E]; [exact E|].
      assert (Hs : settled k = true) by (apply (Hlast id k Hk); lia).
      congruence. }
    unfold one_in_flight. simpl.
    rewrite replace_nth_length, rasterizations_app.
    split; [|split; [|split]].
    + intros Hf. destruct Hun as [[Hk' _]|[Hk' ->]].
      * apply Forall_nth_error. intros i x Hi.
        rewrite nth_error_replace_nth in Hi.
        destruct (Nat.eqb_spec i id) as [->|Hne].
        -- rewrite Hk in Hi. inversion Hi; now subst.
        -- apply (Hlast i x Hi).
           assert (i < length (tasks sys)) by (apply nth_error_Some; congruence).
           lia.
      * specialize (Hidle Hf). rewrite Forall_forall in Hidle.
        assert (Hs : settled k = true).
        { apply Hidle. eapply nth_error_In; eassumption. }
        congruence.
    + intros i x Hi Hlt. rewrite nth_error_replace_nth in Hi.
      destruct (Nat.eqb_spec i id) as [->|Hne]; [lia|].
      now apply (Hlast i x Hi).
    + apply serialized_app with id; [exact Hser| |apply rasterizations_tagged].
      eapply Forall_impl; [|exact Hids]. simpl. intros; lia.
    + apply Forall_app. split; [exact Hids|].
      eapply Forall_impl; [|apply (rasterizations_tagged id evs)].
      intros a <-. exact Hid.
Qed.

Lemma heeded_schedule_one_in_flight acts :
  forall sys,
    one_in_flight sys -> heeds_flag W A sys acts ->
    one_in_flight (fold_left (act W A) acts sys).
Proof.
  induction acts as [|a acts IH]; intros sys Hinv Hh; [exact Hinv|].
  simpl in Hh. destruct Hh as [Ha Hrest]. simpl fold_left.
  apply IH; [|exact Hrest].
  destruct a as [|id].
  - now apply invoke_one_in_flight.
  - now apply resume_one_in_flight.
Qed.

End Reentrancy.

(** C9, as stated, fails: a second invocation made while the first is
    rasterizing is not rejected (it suspends at its imports like the
    first) and is not held back; its html2canvas calls alternate with
    those of the first. *)
Lemma overlapping_exports_interleave :
  let in_flight := schedule Demo.world Demo.args [Invoke; Resume 0] in
  let overlapped :=
    schedule Demo.world Demo.args
             [Invoke; Resume 0; Invoke; Resume 1; Resume 0; Resume 1] in
  isExporting (hook in_flight) = true /\
  rasterizations (log in_flight) = [0] /\
  map settled (tasks in_flight) = [false] /\
  map settled (tasks (act Demo.world Demo.args in_flight Invoke)) = [false; false] /\
  rasterizations (log overlapped) = [0; 1; 0; 1] /\
  ~ serialized (rasterizations (log overlapped)).
Proof.
  intros in_flight overlapped.
  split; [reflexivity|]. split; [reflexivity|]. split; [reflexivity|].
  split; [reflexivity|]. split; [reflexivity|].
  change (rasterizations (log overlapped)) with [0; 1; 0; 1].
  unfold serialized. intros H.
  inversion H as [|a l Hl Ha]; subst.
  inversion Hl as [|b l' Hl' Hb]; subst.
  inversion Hb as [|c l'' Hc Hrest]; subst. lia.
Qed.

(** C9, amended: [exportPdf] has no guard of its own.  Whatever
    [isExporting] says, an invocation that can reach the iframe raises
    the flag and suspends at its imports.  The rasterization passes of
    two invocations never interleave when the caller invokes
    [exportPdf] only while [isExporting] is false. *)
Theorem exportPdf_leaves_reentrancy_to_caller :
  forall {Element Canvas : Type} (W : @World Element Canvas) (A : HookArgs),
    (forall st bd,
        iframe_body (iframeRef A) = Normal (Some bd) ->
        start A st
        = (AwaitImports bd, {| isExporting := true; error := None |}, [])) /\
    (forall acts,
        heeds_flag W A idle acts ->
        serialized (rasterizations (log (schedule W A acts)))).
Proof.
  intros Element Canvas W A. split.
  - intros st bd Hb. unfold start. now rewrite Hb.
  - intros acts Hh.
    destruct (heeded_schedule_one_in_flight W A acts idle
                idle_one_in_flight Hh) as (_ & _ & Hser & _).
    exact Hser.
Qed.

(** Two exports, the second invoked after the first settled. *)
Lemma exportPdf_leaves_reentrancy_to_caller_witness :
  let acts := [Invoke; Resume 0; Resume 0; Resume 0;
               Invoke; Resume 1; Resume 1; Resume 1] in
  heeds_flag Demo.world Demo.args idle acts /\
  rasterizations (log (schedule Demo.world Demo.args acts)) = [0; 0; 1; 1] /\
  serialized (rasterizations (log (schedule Demo.world Demo.args acts))).
Proof.
  intros acts.
  assert (Hh : heeds_flag Demo.world Demo.args idle acts).
  { simpl. repeat split. }
  split; [exact Hh|]. split; [reflexivity|].
  exact (proj2 (@exportPdf_leaves_reentrancy_to_caller
                  nat nat Demo.world Demo.args) acts Hh).
Defined.

(* ===================================================================== *)
(** * Further properties *)
(* ===================================================================== *)

(** ** The splitter *)

Section SplitterMore.

Lemma regex_form_feed_matches prev rest :
  PAGE_DELIMITER_REGEX prev (FF :: rest) = Some ([FF], rest).
Proof.
  apply (regex_at_delimiter prev [FF] rest). now left.
Qed.

Lemma split_loop_no_form_feed prev cur s :
  ~ In FF cur -> Forall (fun seg => ~ In FF seg) (split_loop prev cur s).
Proof.
  apply (split_loop_scan
           (fun prev cur s r => ~ In FF cur -> Forall (fun seg => ~ In FF seg) r)).
  - intros prev' cur' H. constructor; [|constructor].
    intros Hin. apply H. now apply in_rev.
  - intros prev' cur' c rest m after _ IH H. constructor.
    + intros Hin. apply H. now apply in_rev.
    + apply IH. intros [].
  - intros prev' cur' c rest E IH H. apply IH.
    intros [Hc|Hin]; [|now apply H].
    subst c. rewrite regex_form_feed_matches in E. discriminate.
Qed.

Lemma filter_index_In {X} (f : X -> nat -> bool) (l : list X) x :
  In x (filter_index f l) -> In x l.
Proof.
  unfold filter_index. generalize 0.
  induction l as [|y l IH]; intros i; simpl; [tauto|].
  destruct (f y i); simpl; intros H.
  - destruct H as [H|H]; [now left|right; now apply (IH (S i))].
  - right. now apply (IH (S i)).
Qed.

Lemma splitByPageDelimiters_In s page :
  In page (splitByPageDelimiters s) -> In page (split_regex (replace_crlf s)).
Proof.
  destruct (split_regex (replace_crlf s)) as [|first rest] eqn:E.
  - now apply split_regex_nonempty in E.
  - rewrite (splitByPageDelimiters_filter s first rest E).
    intros [H|H]; [now left|right].
    apply filter_In in H. tauto.
Qed.

Lemma replace_crlf_cons c t :
  c <> CR -> replace_crlf (c :: t) = c :: replace_crlf t.
Proof.
  intros Hc. destruct t as [|d t']; [reflexivity|].
  change (replace_crlf (c :: d :: t'))
    with (if ((c =? CR)%N && (d =? LF)%N)%bool
          then LF :: replace_crlf t'
          else c :: replace_crlf (d :: t')).
  apply N.eqb_neq in Hc. now rewrite Hc.
Qed.

Lemma replace_crlf_app a b :
  ~ In CR a -> replace_crlf (a ++ b) = a ++ replace_crlf b.
Proof.
  induction a as [|c a IH]; intros H; [reflexivity|].
  simpl app. rewrite replace_crlf_cons.
  - f_equal. apply IH. intros Hin. apply H. now right.
  - intros ->. apply H. now left.
Qed.

Lemma replace_crlf_In c s : In c (replace_crlf s) -> In c s.
Proof.
  remember (length s) as n eqn:Hn. revert s Hn.
  induction n as [n IH] using lt_wf_ind. intros [|x t] Hn; [tauto|].
  destruct t as [|d t']; [tauto|].
  change (replace_crlf (x :: d :: t'))
    with (if ((x =? CR)%N && (d =? LF)%N)%bool
          then LF :: replace_crlf t'
          else x :: replace_crlf (d :: t')).
  destruct ((x =? CR)%N && (d =? LF)%N)%bool eqn:E.
  - apply andb_prop in E as [_ Ed]. apply N.eqb_eq in Ed. subst d.
    intros [H|H]; [right; now left|].
    right. right.
    apply (IH (length t')); [subst n; simpl; auto with arith|reflexivity|exact H].
  - intros [H|H]; [now left|].
    right.
    apply (IH (length (d :: t'))); [subst n; simpl; auto with arith|reflexivity|exact H].
Qed.

Lemma to_crlf_head s c t : to_crlf s = c :: t -> c <> LF.
Proof.
  destruct s as [|x s']; [discriminate|]. simpl.
  destruct (N.eqb_spec x LF) as [->|Hx].
  - intros H; inversion H; subst. discriminate.
  - intros H; inversion H; now subst.
Qed.

Lemma replace_crlf_to_crlf s : replace_crlf (to_crlf s) = s.
Proof.
  induction s as [|c t IH]; [reflexivity|].
  simpl to_crlf. destruct (N.eqb_spec c LF) as [->|Hc].
  - change (replace_crlf (CR :: LF :: to_crlf t)) with (LF :: replace_crlf (to_crlf t)).
    now rewrite IH.
  - destruct (to_crlf t) as [|d t'] eqn:E.
    + simpl. rewrite <- IH. reflexivity.
    + change (replace_crlf (c :: d :: t'))
        with (if ((c =? CR)%N && (d =? LF)%N)%bool
              then LF :: replace_crlf t'
              else c :: replace_crlf (d :: t')).
      assert (Hd : (d =? LF)%N = false).
      { apply N.eqb_neq. now apply (to_crlf_head t d t'). }
      rewrite Hd, andb_false_r. now rewrite IH.
Qed.

End SplitterMore.

(** X1: no page that [splitByPageDelimiters] returns contains a form
    feed: every form feed of the text is consumed as a delimiter. *)
Theorem pages_have_no_form_feed :
  forall s page, In page (splitByPageDelimiters s) -> ~ In FF page.
Proof.
  intros s page H. apply splitByPageDelimiters_In in H.
  pose proof (split_loop_no_form_feed None [] (replace_crlf s)) as Hall.
  rewrite Forall_forall in Hall. apply Hall; [intros []|exact H].
Qed.

Lemma pages_have_no_form_feed_witness :
  ~ In FF (lit "B") /\
  In (lit "B") (splitByPageDelimiters (lit "A" ++ [FF] ++ [FF] ++ lit "B" ++ [FF])).
Proof.
  assert (H : In (lit "B")
                 (splitByPageDelimiters (lit "A" ++ [FF] ++ [FF] ++ lit "B" ++ [FF]))).
  { right. now left. }
  split; [|exact H].
  exact (pages_have_no_form_feed _ _ H).
Defined.

(** X2: the split loses nothing.  The raw segments, put back together
    with the delimiters that were matched between them (each the token or
    a form feed), are the normalized text; and the pages returned are
    among those segments, untrimmed. *)
Theorem split_segments_rejoin_to_text :
  forall s,
    exists ds,
      S (length ds) = length (split_regex (replace_crlf s)) /\
      Forall (fun d => d = PAGE_TOKEN \/ d = [FF]) ds /\
      rejoin (split_regex (replace_crlf s)) ds = replace_crlf s /\
      (forall page, In page (splitByPageDelimiters s) ->
                    In page (split_regex (replace_crlf s))).
Proof.
  intros s.
  destruct (split_loop_rejoin None [] (replace_crlf s)) as (ds & Hlen & Hds & Hj).
  exists ds. split; [exact Hlen|]. split; [exact Hds|]. split; [exact Hj|].
  intros page. apply splitByPageDelimiters_In.
Qed.

(** X3: a text with no form feed and without the token anywhere is one
    page, the whole normalized text. *)
Theorem undelimited_text_is_one_page :
  forall s,
    ~ In FF s ->
    (forall x y, replace_crlf s <> x ++ PAGE_TOKEN ++ y) ->
    splitByPageDelimiters s = [replace_crlf s].
Proof.
  intros s Hff Htok.
  assert (Hun : unmatched None (replace_crlf s)).
  { intros x y Hs Hy.
    unfold PAGE_DELIMITER_REGEX, match_token_line, match_form_feed.
    assert (Hf : match y with
                 | [] => None
                 | c :: after => if (c =? FF)%N then Some ([FF], after) else None
                 end = None).
    { destruct y as [|c y']; [reflexivity|].
      destruct (N.eqb_spec c FF) as [->|]; [|reflexivity].
      exfalso. apply Hff. apply replace_crlf_In. rewrite Hs.
      apply in_or_app. right. now left. }
    destruct (line_start (prev_after x None)); [|exact Hf].
    destruct (strip_prefix PAGE_TOKEN y) as [after|] eqn:E; [|exact Hf].
    exfalso. apply strip_prefix_app in E. apply (Htok x after). now rewrite Hs, E. }
  rewrite (splitByPageDelimiters_filter s (replace_crlf s) []); [reflexivity|].
  unfold split_regex. now rewrite (split_loop_unmatched _ None [] Hun).
Qed.

Lemma undelimited_text_is_one_page_witness :
  splitByPageDelimiters (lit "# A" ++ [CR; LF] ++ lit "b")
  = [lit "# A" ++ [LF] ++ lit "b"].
Proof.
  apply (undelimited_text_is_one_page (lit "# A" ++ [CR; LF] ++ lit "b")).
  - intros H. vm_compute in H.
    repeat (destruct H as [H|H]; [discriminate|]). exact H.
  - intros x y H.
    assert (Hlen : length (replace_crlf (lit "# A" ++ [CR; LF] ++ lit "b"))
                   = length (x ++ PAGE_TOKEN ++ y)) by now rewrite H.
    rewrite !length_app in Hlen.
    change (length PAGE_TOKEN) with 10 in Hlen.
    change (length (replace_crlf (lit "# A" ++ [CR; LF] ++ lit "b"))) with 5 in Hlen.
    lia.
Defined.

(** X4: writing every LF of a text as CR LF and normalizing gives the
    text back; so a document with CR LF line ends has the pages of the
    same document with LF line ends. *)
Theorem crlf_documents_split_like_lf :
  (forall s, replace_crlf (to_crlf s) = s) /\
  (forall s, replace_crlf s = s ->
             splitByPageDelimiters (to_crlf s) = splitByPageDelimiters s).
Proof.
  split; [exact replace_crlf_to_crlf|].
  intros s Hs. unfold splitByPageDelimiters.
  now rewrite replace_crlf_to_crlf, Hs.
Qed.

Lemma crlf_documents_split_like_lf_witness :
  let s := lit "A" ++ [LF] ++ lit "---page---" ++ [LF] ++ lit "B" in
  to_crlf s = lit "A" ++ [CR; LF] ++ lit "---page---" ++ [CR; LF] ++ lit "B" /\
  splitByPageDelimiters (to_crlf s) = splitByPageDelimiters s.
Proof.
  intros s. split; [reflexivity|].
  exact (proj2 crlf_documents_split_like_lf s eq_refl).
Defined.


Section SplitterEdges.

Lemma replace_crlf_seam a d b :
  d <> LF -> replace_crlf (a ++ d :: b) = replace_crlf a ++ replace_crlf (d :: b).
Proof.
  intros Hd. remember (length a) as n eqn:Hn. revert a Hn.
  induction n as [n IH] using lt_wf_ind. intros [|c t] Hn; [reflexivity|].
  destruct t as [|e t'].
  - change (replace_crlf ([c] ++ d :: b))
      with (if ((c =? CR)%N && (d =? LF)%N)%bool
            then LF :: replace_crlf b
            else c :: replace_crlf (d :: b)).
    apply N.eqb_neq in Hd. now rewrite Hd, andb_false_r.
  - change (replace_crlf ((c :: e :: t') ++ d :: b))
      with (if ((c =? CR)%N && (e =? LF)%N)%bool
            then LF :: replace_crlf (t' ++ d :: b)
            else c :: replace_crlf ((e :: t') ++ d :: b)).
    change (replace_crlf (c :: e :: t'))
      with (if ((c =? CR)%N && (e =? LF)%N)%bool
            then LF :: replace_crlf t'
            else c :: replace_crlf (e :: t')).
    destruct ((c =? CR)%N && (e =? LF)%N)%bool.
    + rewrite (IH (length t')); [reflexivity|subst n; simpl; auto with arith|reflexivity].
    + rewrite (IH (length (e :: t')));
        [reflexivity|subst n; simpl; auto with arith|reflexivity].
Qed.

(** Before a form feed, a text that does not end with the token is
    scanned as it is on its own. *)
Lemma split_loop_before_form_feed pre :
  forall prev cur post,
    (forall x, pre <> x ++ PAGE_TOKEN) ->
    split_loop prev cur (pre ++ FF :: post)
    = split_loop prev cur pre ++ split_loop (Some FF) [] post.
Proof.
  remember (length pre) as n eqn:Hn. revert pre Hn.
  induction n as [n IH] using lt_wf_ind.
  intros [|c pre] Hn prev cur post Hend.
  - simpl app. rewrite split_loop_cons, regex_form_feed_matches, split_loop_nil.
    reflexivity.
  - assert (Hd : delimiter_at (prev_after (c :: pre) prev) [FF] post) by now left.
    change ((c :: pre) ++ FF :: post) with (c :: (pre ++ FF :: post)).
    rewrite !split_loop_cons.
    change (c :: (pre ++ FF :: post)) with ((c :: pre) ++ [FF] ++ post).
    destruct (PAGE_DELIMITER_REGEX prev ((c :: pre) ++ [FF] ++ post))
      as [[m after]|] eqn:E.
    + destruct (regex_before_delimiter prev (c :: pre) [FF] post m after)
        as (pre' & Hpre & ->); [discriminate|assumption|assumption|].
      destruct (regex_match_inv _ _ _ _ E) as [_ Hm].
      assert (Hlen : length pre' < n).
      { subst n. rewrite Hpre, length_app. destruct Hm as [->| ->]; simpl; lia. }
      assert (Halone : PAGE_DELIMITER_REGEX prev (c :: pre) = Some (m, pre')).
      { rewrite Hpre. destruct Hm as [->| ->].
        - unfold PAGE_DELIMITER_REGEX, match_token_line in E |- *.
          destruct (line_start prev).
          + rewrite strip_prefix_complete.
            rewrite Hpre, <- app_assoc, strip_prefix_complete in E.
            destruct pre' as [|x pre''].
            * exfalso. apply (Hend []). now rewrite Hpre, app_nil_r.
            * change (line_end ((x :: pre'') ++ [FF] ++ post))
                with (line_end (x :: pre'')) in E.
              destruct (line_end (x :: pre'')); [reflexivity|].
              unfold match_form_feed in E. simpl in E. discriminate.
          + unfold match_form_feed in E. rewrite Hpre in E. simpl in E.
            discriminate.
        - apply regex_form_feed_matches. }
      rewrite Halone. simpl app. f_equal.
      apply (IH _ Hlen pre' eq_refl).
      intros x Hx. apply (Hend (m ++ x)). now rewrite Hpre, Hx, app_assoc.
    + assert (Halone : PAGE_DELIMITER_REGEX prev (c :: pre) = None).
      { destruct (PAGE_DELIMITER_REGEX prev (c :: pre)) as [[m after]|] eqn:E';
          [|reflexivity].
        exfalso.
        destruct (regex_match_inv _ _ _ _ E') as [Hr Hm].
        destruct Hm as [->| ->].
        - unfold PAGE_DELIMITER_REGEX, match_token_line in E, E'.
          destruct (line_start prev).
          + rewrite Hr, <- app_assoc, strip_prefix_complete in E.
            rewrite Hr, strip_prefix_complete in E'.
            destruct after as [|x after'].
            * apply (Hend []). now rewrite Hr, app_nil_r.
            * change (line_end ((x :: after') ++ [FF] ++ post))
                with (line_end (x :: after')) in E.
              destruct (line_end (x :: after')); [discriminate|].
              unfold match_form_feed in E'. simpl in E'. discriminate.
          + rewrite Hr in E'. unfold match_form_feed in E'. simpl in E'.
            discriminate.
        - simpl in Hr. injection Hr as Hc Hp. rewrite Hc in E.
          change ((FF :: pre) ++ [FF] ++ post)
            with (FF :: (pre ++ [FF] ++ post)) in E.
          rewrite regex_form_feed_matches in E. discriminate. }
      rewrite Halone.
      assert (Hlen : length pre < n) by (subst n; simpl; lia).
      apply (IH _ Hlen pre eq_refl).
      intros x Hx. apply (Hend (c :: x)). now rewrite Hx.
Qed.

Lemma filter_has_content_blank_tail (l : list text) :
  filter has_content (l ++ [[]]) = filter has_content l.
Proof. rewrite filter_app. simpl. apply app_nil_r. Qed.

End SplitterEdges.

(** X5: a text that starts with a delimiter has an empty first page: the
    first segment is kept although it is blank. *)
Theorem leading_delimiter_gives_empty_first_page :
  forall s,
    (exists rest, splitByPageDelimiters (FF :: s) = [] :: rest) /\
    (exists rest, splitByPageDelimiters (PAGE_TOKEN ++ LF :: s) = [] :: rest).
Proof.
  intros s. split.
  - exists (filter has_content (split_loop (Some FF) [] (replace_crlf s))).
    apply splitByPageDelimiters_filter.
    rewrite replace_crlf_cons by discriminate.
    unfold split_regex. now rewrite split_loop_cons, regex_form_feed_matches.
  - exists (filter has_content
              (split_loop (Some 45%N) [] (replace_crlf (LF :: s)))).
    apply splitByPageDelimiters_filter.
    rewrite replace_crlf_app.
    + rewrite replace_crlf_cons by discriminate.
      unfold split_regex.
      apply (split_loop_unmatched_then [] None [] PAGE_TOKEN
                                       (LF :: replace_crlf s)).
      * intros x y Hxy Hy. destruct x; destruct y; simpl in Hxy; congruence.
      * right. repeat split.
    + intros Hin. destruct (token_chars CR Hin) as [Hlt _]. discriminate.
Qed.

(** X6: a form feed at the very end of a text adds no page, provided the
    normalized text does not end with the token (which a form feed right
    after it would keep from being a line of its own). *)
Theorem trailing_form_feed_adds_no_page :
  forall s,
    (forall x, replace_crlf s <> x ++ PAGE_TOKEN) ->
    splitByPageDelimiters (s ++ [FF]) = splitByPageDelimiters s.
Proof.
  intros s Hend.
  destruct (split_regex (replace_crlf s)) as [|first rest] eqn:E.
  { now apply split_regex_nonempty in E. }
  rewrite (splitByPageDelimiters_filter s first rest E).
  rewrite (splitByPageDelimiters_filter (s ++ [FF]) first (rest ++ [[]])).
  - now rewrite filter_has_content_blank_tail.
  - rewrite replace_crlf_seam by discriminate.
    change (replace_crlf [FF]) with [FF].
    unfold split_regex in *.
    rewrite (split_loop_before_form_feed (replace_crlf s) None [] [] Hend), E.
    rewrite split_loop_nil. reflexivity.
Qed.

Lemma trailing_form_feed_adds_no_page_witness :
  splitByPageDelimiters (lit "A" ++ [FF] ++ lit "B" ++ [FF])
  = splitByPageDelimiters (lit "A" ++ [FF] ++ lit "B").
Proof.
  apply (trailing_form_feed_adds_no_page (lit "A" ++ [FF] ++ lit "B")).
  intros x H.
  assert (Hlen : length (replace_crlf (lit "A" ++ [FF] ++ lit "B"))
                 = length (x ++ PAGE_TOKEN)) by now rewrite H.
  rewrite length_app in Hlen.
  change (length PAGE_TOKEN) with 10 in Hlen.
  change (length (replace_crlf (lit "A" ++ [FF] ++ lit "B"))) with 3 in Hlen.
  lia.
Defined.

(** ** Pages and their markup *)

Section PagesMore.

Variable md_render : text -> text.

Lemma map_from_length {X Y} (f : X -> nat -> Y) k (l : list X) :
  length (map_from f k l) = length l.
Proof.
  revert k; induction l as [|x l IH]; intro k; simpl; [reflexivity|].
  now rewrite IH.
Qed.

Lemma map_from_index_seq (f : text -> nat -> ParsedPage) k (l : list text) :
  (forall x i, index (f x i) = i) ->
  map index (map_from f k l) = seq k (length l).
Proof.
  intros Hf. revert k; induction l as [|x l IH]; intro k; simpl; [reflexivity|].
  now rewrite Hf, IH.
Qed.

Lemma parseMarkdownToPages_length s :
  length (parseMarkdownToPages md_render s) = length (splitByPageDelimiters s).
Proof. unfold parseMarkdownToPages, map_index. apply map_from_length. Qed.

Lemma page_wrappers_nth pages k page :
  nth_error pages k = Some page ->
  nth_error (page_wrappers pages) k
  = Some (wrapper (if Nat.eqb k (length pages - 1)
                   then lit "page last-page" else lit "page")
                  (number_text (index page + 1)) (html page)).
Proof.
  intros H. unfold page_wrappers, map_index.
  rewrite nth_error_map_from, H. reflexivity.
Qed.

End PagesMore.

(** X7: the pages of [parseMarkdownToPages] are numbered by position,
    from 0, and there are as many as the splitter returns, at least
    one. *)
Theorem page_indices_are_positions :
  forall md_render s,
    map index (parseMarkdownToPages md_render s)
    = seq 0 (length (splitByPageDelimiters s)) /\
    length (parseMarkdownToPages md_render s) = length (splitByPageDelimiters s) /\
    1 <= length (parseMarkdownToPages md_render s).
Proof.
  intros md_render s. split; [|split].
  - unfold parseMarkdownToPages, map_index. now apply map_from_index_seq.
  - apply parseMarkdownToPages_length.
  - rewrite parseMarkdownToPages_length.
    destruct (split_regex (replace_crlf s)) as [|first rest] eqn:E.
    + now apply split_regex_nonempty in E.
    + rewrite (splitByPageDelimiters_filter s first rest E). simpl. lia.
Qed.

(** X8: in the markup the preview assembles from a text, there is one
    wrapper per page of the splitter; the [k]-th holds that page's own
    rendering, is labelled [data-page = k + 1], and has the class
    ['page last-page'] exactly when it is the final one. *)
Theorem preview_sections_are_numbered :
  forall md_render s k content,
    nth_error (splitByPageDelimiters s) k = Some content ->
    let pages := parseMarkdownToPages md_render s in
    let n := length (splitByPageDelimiters s) in
    length (page_wrappers pages) = n /\
    generatePaginatedHtml pages = join [LF] (page_wrappers pages) /\
    nth_error (page_wrappers pages) k
    = Some (wrapper (if Nat.eqb (S k) n then lit "page last-page" else lit "page")
                    (number_text (k + 1)) (md_render content)).
Proof.
  intros md_render s k content H pages n.
  split; [|split].
  - unfold page_wrappers, map_index. rewrite map_from_length.
    apply parseMarkdownToPages_length.
  - reflexivity.
  - assert (Hp : nth_error pages k
                 = Some {| index := k; markdown := content;
                           html := markdownToHtml md_render content |}).
    { unfold pages. now rewrite parseMarkdownToPages_nth, H. }
    rewrite (page_wrappers_nth pages k _ Hp). simpl index. simpl html.
    unfold pages. rewrite parseMarkdownToPages_length. fold n.
    assert (Hk : k < n). { apply nth_error_Some. congruence. }
    replace (Nat.eqb k (n - 1)) with (Nat.eqb (S k) n); [reflexivity|].
    destruct (Nat.eqb_spec (S k) n), (Nat.eqb_spec k (n - 1)); try reflexivity; lia.
Qed.

(** A list cut in two pages: the second wrapper is the last one. *)
Lemma preview_sections_are_numbered_witness :
  let s := lit "a" ++ [FF] ++ lit "b" in
  let render := fun x : text => lit "<p>" ++ x ++ lit "</p>" in
  nth_error (page_wrappers (parseMarkdownToPages render s)) 1
  = Some (wrapper (lit "page last-page") (lit "2") (lit "<p>b</p>")) /\
  nth_error (page_wrappers (parseMarkdownToPages render s)) 0
  = Some (wrapper (lit "page") (lit "1") (lit "<p>a</p>")).
Proof.
  intros s render. split.
  - exact (proj2 (proj2 (preview_sections_are_numbered render s 1 (lit "b") eq_refl))).
  - exact (proj2 (proj2 (preview_sections_are_numbered render s 0 (lit "a") eq_refl))).
Defined.

(** ** The stylesheet in a medium *)

Section CascadeFacts.

Import Cascade.
Local Open Scope string_scope.

Lemma winning_page_other_medium ps prop medium :
  medium <> "print" -> medium <> "screen" ->
  winning ".page" prop medium (generatePrintStyles ps)
  = match rule_sets ".page" (generatePrintStyles ps) with
    | (_, base) :: _ => declared prop (declarations base)
    | [] => None
    end.
Proof.
  intros Hp Hs. unfold winning.
  destruct (page_rule_sets ps) as (_ & base & pr & sc & Hrs & _).
  rewrite Hrs. cbn [fold_left applies fst snd].
  assert (H1 : String.eqb "print" medium = false).
  { apply String.eqb_neq. congruence. }
  assert (H2 : String.eqb "screen" medium = false).
  { apply String.eqb_neq. congruence. }
  rewrite H1, H2.
  destruct (declared prop (declarations base)); reflexivity.
Qed.

End CascadeFacts.

(** X9: what the page element gets.  In print and on screen the
    declarations that win for [.page] are the full page width and height
    with the margin as padding and no outer margin, whatever the page
    size; print also caps the height.  In any other medium the base rule
    set wins: the width is [width - 2 * margin] and no height is set. *)
Theorem page_box_in_each_medium :
  forall ps medium,
    let sheet := generatePrintStyles ps in
    let wins prop := Cascade.winning ".page" prop medium sheet in
    (medium = "print"%string \/ medium = "screen"%string ->
     wins "width"%string = Some (Mm (width ps)) /\
     wins "height"%string = Some (Mm (height ps)) /\
     wins "min-height"%string = Some (Mm (height ps)) /\
     wins "padding"%string = Some (Mm (margin ps)) /\
     wins "margin"%string = Some (Lit "0")) /\
    (medium = "print"%string ->
     wins "max-height"%string = Some (Mm (height ps))) /\
    (medium <> "print"%string -> medium <> "screen"%string ->
     wins "width"%string = Some (Mm (width ps - margin ps * 2)) /\
     wins "height"%string = None /\
     wins "padding"%string = Some (Mm (margin ps))).
Proof.
  intros ps medium sheet wins. split; [|split].
  - intros [->| ->]; repeat split.
  - intros ->. reflexivity.
  - intros Hp Hs. unfold wins, sheet.
    rewrite !winning_page_other_medium by assumption.
    repeat split.
Qed.

Lemma page_box_in_each_medium_witness :
  let A4 := {| width := 210; height := 297; margin := 20 |} in
  Cascade.winning ".page" "width" "screen" (generatePrintStyles A4)
  = Some (Mm 210) /\
  Cascade.winning ".page" "width" "speech" (generatePrintStyles A4)
  = Some (Mm (210 - 20 * 2)).
Proof.
  intros A4. split.
  - destruct (page_box_in_each_medium A4 "screen") as (H & _).
    exact (proj1 (H (or_intror eq_refl))).
  - destruct (page_box_in_each_medium A4 "speech") as (_ & _ & H).
    refine (proj1 (H _ _)); discriminate.
Defined.

(** X10: on paper.  The [@page] rule gives the sheet the configured size
    and no margin; in print the root elements and the page element have
    that same size, and the page element forces a page break after it
    and forbids one inside it. *)
Theorem print_sheet_matches_page :
  forall ps,
    let sheet := generatePrintStyles ps in
    Cascade.at_page "size" sheet = Some (MmPair (width ps) (height ps)) /\
    Cascade.at_page "margin" sheet = Some (Lit "0") /\
    Cascade.winning "html, body" "width" "print" sheet = Some (Mm (width ps)) /\
    Cascade.winning "html, body" "height" "print" sheet = Some (Mm (height ps)) /\
    Cascade.winning ".page" "width" "print" sheet = Some (Mm (width ps)) /\
    Cascade.winning ".page" "height" "print" sheet = Some (Mm (height ps)) /\
    Cascade.winning ".page" "break-after" "print" sheet = Some (Lit "page") /\
    Cascade.winning ".page" "break-inside" "print" sheet = Some (Lit "avoid") /\
    Cascade.winning ".page.last-page" "break-after" "print" sheet = Some (Lit "auto").
Proof. intros ps sheet. repeat split. Qed.

(** ** The preview scale, continued *)

Section ScaleMore.

Local Open Scope Q_scope.

Lemma page_width_px_pos w : 0 < w -> 0 < w * MM_TO_PX.
Proof. intros Hw. apply Qmult_lt_0_compat; [exact Hw|reflexivity]. Qed.

End ScaleMore.

(** X11: the scale fits the page to the width that is available.  For a
    page of positive width: when the window's inner width less 40 is at
    most the page's width in pixels, the scaled page is exactly that
    wide; when it is more, the scale is 1. *)
Theorem preview_scale_fills_available_width :
  forall w vw : Q,
    (0 < w)%Q ->
    ((vw - 40 <= w * MM_TO_PX)%Q ->
     (updateScale w vw * (w * MM_TO_PX) == vw - 40)%Q) /\
    ((w * MM_TO_PX <= vw - 40)%Q -> (updateScale w vw == 1)%Q).
Proof.
  intros w vw Hw. pose proof (page_width_px_pos w Hw) as Hpx.
  assert (Hne : ~ (w * MM_TO_PX == 0)%Q).
  { intros H. rewrite H in Hpx. discriminate. }
  unfold updateScale. split; intros H.
  - rewrite Q.min_l.
    + unfold Qdiv. rewrite <- Qmult_assoc, (Qmult_comm (/ _)).
      rewrite Qmult_inv_r by exact Hne. apply Qmult_1_r.
    + apply Qle_shift_div_r; [exact Hpx|]. now rewrite Qmult_1_l.
  - apply Q.min_r. apply Qle_shift_div_l; [exact Hpx|]. now rewrite Qmult_1_l.
Qed.

Lemma preview_scale_fills_available_width_witness :
  (updateScale 210 400 * (210 * MM_TO_PX) == 400 - 40)%Q /\
  (updateScale 210 900 == 1)%Q.
Proof.
  assert (Hw : (0 < 210)%Q) by reflexivity.
  split.
  - apply (proj1 (preview_scale_fills_available_width 210 400 Hw)).
    vm_compute. discriminate.
  - apply (proj2 (preview_scale_fills_available_width 210 900 Hw)).
    vm_compute. discriminate.
Defined.

(** X12: the script does not clamp from below.  In a window whose inner
    width is under the 40 pixels it sets aside, the scale it stores is
    negative; at exactly 40 it is zero. *)
Theorem narrow_window_gives_nonpositive_scale :
  forall w vw : Q,
    (0 < w)%Q ->
    ((vw < 40)%Q -> (updateScale w vw < 0)%Q) /\
    ((vw == 40)%Q -> (updateScale w vw == 0)%Q).
Proof.
  intros w vw Hw. pose proof (page_width_px_pos w Hw) as Hpx.
  unfold updateScale. split; intros H.
  - assert (Hneg : ((vw - 40) / (w * MM_TO_PX) < 0)%Q).
    { apply Qlt_shift_div_r; [exact Hpx|]. rewrite Qmult_0_l.
      unfold Qminus. apply (Qplus_lt_l _ _ 40).
      rewrite <- Qplus_assoc, (Qplus_comm (- 40)), Qplus_opp_r, Qplus_0_r, Qplus_0_l.
      exact H. }
    rewrite Q.min_l; [exact Hneg|].
    apply Qlt_le_weak. eapply Qlt_trans; [exact Hneg|reflexivity].
  - assert (Hz : ((vw - 40) / (w * MM_TO_PX) == 0)%Q).
    { rewrite H. unfold Qminus. rewrite Qplus_opp_r. reflexivity. }
    rewrite Q.min_l; [exact Hz|]. rewrite Hz. discriminate.
Qed.

Lemma narrow_window_gives_nonpositive_scale_witness :
  (updateScale 210 30 < 0)%Q.
Proof.
  apply (proj1 (narrow_window_gives_nonpositive_scale 210 30 eq_refl)).
  reflexivity.
Defined.

(** ** The page size controls *)

Section Controls.

Import PageSizeControls.
Local Open Scope string_scope.

Lemma preset_In key table p :
  preset key table = Some p -> In (key, p) table.
Proof.
  induction table as [|[name q] rest IH]; simpl; [discriminate|].
  destruct (String.eqb_spec name key) as [->|Hne].
  - intros H; inversion H; subst. now left.
  - intros H. right. now apply IH.
Qed.

Lemma handlePresetChange_In value p :
  handlePresetChange value = Some p -> In (value, p) PAGE_PRESETS.
Proof.
  unfold handlePresetChange.
  destruct (preset value PAGE_PRESETS) as [q|] eqn:E; [|discriminate].
  intros H; inversion H; subst. now apply preset_In.
Qed.

Lemma same_size_zero_width p ps :
  In p (map snd PAGE_PRESETS) -> (width ps == 0)%Q -> same_size p ps = false.
Proof.
  intros Hin Hw. unfold same_size.
  assert (Hp : Qeq_bool (width p) (width ps) = false).
  { destruct (Qeq_bool (width p) (width ps)) eqn:E; [|reflexivity].
    apply Qeq_bool_eq in E. rewrite Hw in E.
    simpl in Hin.
    repeat (destruct Hin as [<-|Hin]; [discriminate E|]). contradiction. }
  now rewrite Hp.
Qed.

Lemma same_size_zero_height p ps :
  In p (map snd PAGE_PRESETS) -> (height ps == 0)%Q -> same_size p ps = false.
Proof.
  intros Hin Hh. unfold same_size.
  assert (Hp : Qeq_bool (height p) (height ps) = false).
  { destruct (Qeq_bool (height p) (height ps)) eqn:E; [|reflexivity].
    apply Qeq_bool_eq in E. rewrite Hh in E.
    simpl in Hin.
    repeat (destruct Hin as [<-|Hin]; [discriminate E|]). contradiction. }
  rewrite Hp. now rewrite andb_false_r.
Qed.

Lemma currentPreset_custom ps :
  (forall p, In p (map snd PAGE_PRESETS) -> same_size p ps = false) ->
  currentPreset ps = "custom".
Proof.
  intros H. unfold currentPreset.
  destruct (find (fun entry => same_size (snd entry) ps) PAGE_PRESETS)
    as [entry|] eqn:E; [|reflexivity].
  apply find_some in E as [Hin Hs].
  rewrite (H (snd entry)) in Hs; [discriminate|].
  now apply in_map.
Qed.

Lemma parsed_or_zero_eq parsed :
  (parsed_or_zero parsed == match parsed with Some q => q | None => 0 end)%Q.
Proof.
  destruct parsed as [q|]; simpl; [|reflexivity].
  destruct (Qeq_bool q 0) eqn:E; [|reflexivity].
  apply Qeq_bool_eq in E. now rewrite E.
Qed.

End Controls.

(** X13: choosing a preset and reading the selection back.  Whatever
    page size [handlePresetChange] passes on is shown again under the
    name that was chosen, satisfies the page-size invariant and lies
    within the bounds the number inputs declare. *)
Theorem preset_selection_round_trip :
  forall value p,
    PageSizeControls.handlePresetChange value = Some p ->
    PageSizeControls.currentPreset p = value /\
    valid_PageSize p /\
    PageSizeControls.within_input_bounds p.
Proof.
  intros value p H. apply handlePresetChange_In in H. simpl in H.
  repeat (destruct H as [H|H];
          [inversion H; subst; split; [reflexivity|];
           split; repeat split; q_closed|]).
  contradiction.
Qed.

Lemma preset_selection_round_trip_witness :
  PageSizeControls.currentPreset {| width := 216; height := 279; margin := 20 |}
  = "Letter"%string.
Proof.
  exact (proj1 (preset_selection_round_trip
                  "Letter" {| width := 216; height := 279; margin := 20 |}
                  eq_refl)).
Defined.

(** X14: the number inputs do not reject what they cannot parse.  An
    emptied or non-numeric width or height is passed on as 0: the page
    size no longer satisfies the invariant and is shown as ['custom'].
    The other two fields are passed on untouched; a parsed number is
    passed on as it is. *)
Theorem unparsable_dimension_becomes_zero :
  forall ps,
    let w0 := PageSizeControls.handleInputChange ps PageSizeControls.Width None in
    let h0 := PageSizeControls.handleInputChange ps PageSizeControls.Height None in
    (width w0 == 0)%Q /\ height w0 = height ps /\ margin w0 = margin ps /\
    (height h0 == 0)%Q /\ width h0 = width ps /\ margin h0 = margin ps /\
    ~ valid_PageSize w0 /\ ~ valid_PageSize h0 /\
    PageSizeControls.currentPreset w0 = "custom"%string /\
    PageSizeControls.currentPreset h0 = "custom"%string /\
    (forall field q,
        let ps' := PageSizeControls.handleInputChange ps field (Some q) in
        match field with
        | PageSizeControls.Width => (width ps' == q)%Q
        | PageSizeControls.Height => (height ps' == q)%Q
        | PageSizeControls.Margin => (margin ps' == q)%Q
        end).
Proof.
  intros ps w0 h0.
  split; [reflexivity|]. split; [reflexivity|]. split; [reflexivity|].
  split; [reflexivity|]. split; [reflexivity|]. split; [reflexivity|].
  split; [|split; [|split; [|split; [|]]]].
  - intros (Hw & _). revert Hw. simpl. discriminate.
  - intros (_ & Hh & _). revert Hh. simpl. discriminate.
  - apply currentPreset_custom. intros p Hp.
    now apply same_size_zero_width.
  - apply currentPreset_custom. intros p Hp.
    now apply same_size_zero_height.
  - intros field q ps'.
    pose proof (parsed_or_zero_eq (Some q)) as H.
    destruct field; exact H.
Qed.

(** ** One export and the calls it makes *)

Section Trace.

Context {Element Canvas : Type}.
Variable W : @World Element Canvas.
Variable A : @HookArgs Element.

Let w : Q := width (pageSize (options A)).
Let h : Q := height (pageSize (options A)).

Lemma prepend_prepend (e1 e2 : list (@Event Element)) r :
  prepend e1 (prepend e2 r) = prepend (e1 ++ e2) r.
Proof. destruct r as [[k st] evs]. simpl. now rewrite app_assoc. Qed.

Lemma invoke_logged_step fuel st :
  invoke_logged W A fuel st = logged_step W A fuel (start A st).
Proof.
  unfold invoke_logged, logged_step, prepend.
  destruct (start A st) as [[k st'] evs]. reflexivity.
Qed.

Lemma run_logged_settled fuel r st :
  run_logged W A fuel (Settled r) st = (Settled r, st, []).
Proof. destruct fuel; reflexivity. Qed.

Lemma run_logged_resume fuel k st :
  settled k = false ->
  run_logged W A (S fuel) k st = logged_step W A fuel (resume W A k st).
Proof.
  intros Hk. unfold logged_step, prepend.
  destruct k as [bd|page rest i pdf|blob|r]; try discriminate;
    cbn [run_logged];
    match goal with
    | |- context [resume W A ?k st] =>
        generalize (resume W A k st); intros [[k' st'] evs]; reflexivity
    end.
Qed.

Lemma logged_loop_ok pages :
  forall images i pdf st fuel,
    map (capture W) pages = map Some images ->
    logged_step W A (length pages + fuel) (loop_head A pages i pdf st)
    = prepend (map Rasterize pages)
              (logged_step W A fuel (after_loop A (embed_all w h i images pdf) st)).
Proof.
  induction pages as [|page rest IH]; intros images i pdf st fuel H.
  - destruct images; [|discriminate]. simpl.
    now destruct (logged_step W A fuel (after_loop A pdf st)) as [[k st'] evs].
  - destruct images as [|d ds]; [discriminate|].
    simpl in H. inversion H as [[Hd Hds]]. unfold capture in Hd.
    cbn [loop_head length Nat.add]. unfold logged_step at 1.
    rewrite run_logged_resume by reflexivity.
    cbn [resume].
    destruct (html2canvas W page html2canvas_options) as [canvas|e];
      [|discriminate].
    inversion Hd; subst d. fold w h.
    rewrite (IH ds (S i) _ st fuel Hds), prepend_prepend. reflexivity.
Qed.

Lemma logged_loop_fails done :
  forall images bad rest e i pdf st fuel,
    map (capture W) done = map Some images ->
    html2canvas W bad html2canvas_options = Throw e ->
    logged_step W A (S (length done) + fuel)
                (loop_head A (done ++ bad :: rest) i pdf st)
    = (Settled (Normal None), failed (reported e), map Rasterize (done ++ [bad])).
Proof.
  induction done as [|page done' IH]; intros images bad rest e i pdf st fuel H Hb.
  - cbn [app loop_head length Nat.add]. unfold logged_step.
    rewrite run_logged_resume by reflexivity. cbn [resume]. rewrite Hb.
    unfold caught, catch_block, logged_step, prepend. simpl.
    rewrite run_logged_settled. now destruct e.
  - destruct images as [|d ds]; [discriminate|].
    simpl in H. inversion H as [[Hd Hds]]. unfold capture in Hd.
    cbn [app loop_head length Nat.add]. unfold logged_step at 1.
    rewrite run_logged_resume by reflexivity. cbn [resume].
    destruct (html2canvas W page html2canvas_options) as [canvas|e'];
      [|discriminate].
    rewrite (IH ds bad rest e (S i) _ st fuel Hds Hb). reflexivity.
Qed.

(** While it is suspended the invocation leaves the hook busy; when it
    settles it lowers the flag. *)
Lemma run_alone_busy fuel :
  forall k,
    settled k = false ->
    let '(k', st') := run_alone W A fuel k busy in
    (settled k' = false /\ st' = busy) \/
    (settled k' = true /\ isExporting st' = false).
Proof.
  induction fuel as [|fuel IH]; intros k Hk.
  - destruct k; try discriminate; simpl; now left.
  - rewrite run_alone_resume by exact Hk. unfold run_step.
    destruct (resume_cases W A k busy) as (k1 & st1 & evs & -> & _ & Hun).
    simpl fst. simpl snd.
    destruct (Hun Hk) as [[Hs Hf]|[Hs ->]].
    + destruct k1; try discriminate. rewrite run_alone_settled. now right.
    + now apply IH.
Qed.

End Trace.

(** X15: the name handed to the callback always ends in [.pdf] and has
    a non-empty stem: the configured name, or [document] when none or
    an empty one was configured. *)
Theorem export_filename_has_stem_and_extension :
  forall opts,
    exists stem,
      export_filename opts = (stem ++ ".pdf")%string /\
      stem <> ""%string /\
      match filename opts with
      | Some f => if String.eqb f "" then stem = "document"%string else stem = f
      | None => stem = "document"%string
      end.
Proof.
  intros opts. unfold export_filename.
  destruct (filename opts) as [f|].
  - destruct (String.eqb_spec f "") as [->|Hne].
    + exists "document"%string. repeat split. discriminate.
    + exists f. repeat split. exact Hne.
  - exists "document"%string. repeat split. discriminate.
Qed.

(** X16: what one export does, in order.  With the imports loaded and
    pages found, html2canvas is called on the page elements in document
    order, each once; when all are captured the callback, if any, is
    called once, after them, with the finished document; when a capture
    fails no later page is rasterized, the callback is not called and
    the export settles with null and the error of that capture. *)
Theorem lone_export_calls_in_order :
  forall {Element Canvas : Type} (W : @World Element Canvas) (A : HookArgs)
         st bd u,
    iframe_body (iframeRef A) = Normal (Some bd) ->
    import_modules W = Normal u ->
    (forall images,
        pageElements bd <> [] ->
        map (capture W) (pageElements bd) = map Some images ->
        exists fuel,
          invoke_logged W A fuel st
          = (Settled (fst (exportPdf W A st)), snd (exportPdf W A st),
             map Rasterize (pageElements bd) ++
             match onExport A with
             | Some _ => [Callback (PdfBlob (built_pdf A images))
                                   (export_filename (options A))]
             | None => []
             end)) /\
    (forall done images bad rest e,
        pageElements bd = done ++ bad :: rest ->
        map (capture W) done = map Some images ->
        html2canvas W bad html2canvas_options = Throw e ->
        exists fuel,
          invoke_logged W A fuel st
          = (Settled (Normal None), failed (reported e),
             map Rasterize (done ++ [bad]))).
Proof.
  intros Element Canvas W A st bd u Hb Hi. split.
  - intros images Hne Hc. exists (S (length (pageElements bd) + 1)).
    rewrite (exportPdf_captured W A st bd u images Hb Hi Hne Hc).
    rewrite invoke_logged_step. unfold start. rewrite Hb.
    unfold logged_step at 1. rewrite run_logged_resume by reflexivity.
    cbn [resume]. rewrite Hi.
    assert (Hlen : (length (pageElements bd) =? 0) = false).
    { apply Nat.eqb_neq. destruct (pageElements bd); [congruence|discriminate]. }
    rewrite Hlen.
    rewrite (logged_loop_ok W A (pageElements bd) images _ _ _ _ Hc).
    fold (built_pdf A images).
    unfold after_loop, logged_step.
    destruct (onExport A) as [callback|] eqn:Hcb.
    + rewrite run_logged_resume by reflexivity. cbn [resume]. rewrite Hcb.
      destruct (callback _ _) as [[]|e]; simpl.
      * reflexivity.
      * destruct e; reflexivity.
    + unfold finish. rewrite run_logged_settled. simpl.
      rewrite ?app_nil_r. reflexivity.
  - intros done images bad rest e Hp Hd Hbad.
    exists (S (S (length done) + 0)).
    rewrite invoke_logged_step. unfold start. rewrite Hb.
    unfold logged_step at 1. rewrite run_logged_resume by reflexivity.
    cbn [resume]. rewrite Hi, Hp.
    assert (Hlen : (length (done ++ bad :: rest) =? 0) = false).
    { rewrite length_app. simpl. apply Nat.eqb_neq. lia. }
    rewrite Hlen.
    now rewrite (logged_loop_fails W A done images bad rest e _ _ _ _ Hd Hbad).
Qed.

(** Page 1 of two cannot be captured: both pages are tried, in order,
    and nothing else is called. *)
Lemma lone_export_calls_in_order_witness :
  exists fuel,
    invoke_logged Demo.world_tainted Demo.args fuel initial
    = (Settled (Normal None), failed "Tainted canvas",
       [Rasterize 0; Rasterize 1]).
Proof.
  destruct (@lone_export_calls_in_order
              nat nat Demo.world_tainted Demo.args initial
              {| pageElements := [0; 1] |} tt eq_refl eq_refl) as (_ & H).
  exact (H [0] ["A.png"%string] 1 [] (ErrorObject "Tainted canvas")
           eq_refl eq_refl eq_refl).
Defined.

(** X17: while an invocation that reached the iframe is in flight,
    alone, the hook shows [isExporting = true] and no error; once it has
    settled, [isExporting] is false. *)
Theorem flag_is_up_while_in_flight :
  forall {Element Canvas : Type} (W : @World Element Canvas) (A : HookArgs)
         st bd fuel,
    iframe_body (iframeRef A) = Normal (Some bd) ->
    let '(k, st') := run_step W A fuel (start A st) in
    (settled k = false /\ st' = busy) \/
    (settled k = true /\ isExporting st' = false).
Proof.
  intros Element Canvas W A st bd fuel Hb.
  unfold start. rewrite Hb. unfold run_step. simpl fst. simpl snd.
  exact (run_alone_busy W A fuel (AwaitImports bd) eq_refl).
Qed.

Lemma flag_is_up_while_in_flight_witness :
  snd (run_step Demo.world Demo.args 2 (start Demo.args initial)) = busy /\
  isExporting (snd (run_step Demo.world Demo.args 3 (start Demo.args initial)))
  = false.
Proof.
  pose proof (@flag_is_up_while_in_flight nat nat Demo.world Demo.args initial
                {| pageElements := [0; 1] |} 2 eq_refl) as H2.
  pose proof (@flag_is_up_while_in_flight nat nat Demo.world Demo.args initial
                {| pageElements := [0; 1] |} 3 eq_refl) as H3.
  split.
  - destruct (run_step Demo.world Demo.args 2 (start Demo.args initial))
      as [k st'] eqn:E.
    destruct H2 as [[_ H]|[Hs _]]; [exact H|].
    inversion E; subst. discriminate Hs.
  - destruct (run_step Demo.world Demo.args 3 (start Demo.args initial))
      as [k st'] eqn:E.
    destruct H3 as [[Hs _]|[_ H]]; [|exact H].
    inversion E; subst. discriminate Hs.
Defined.



(** X19: the selection shown is the page size.  [currentPreset] names a
    preset only if that preset, looked up again, has exactly the width,
    height and margin of the page size; it is ['custom'] only if no
    preset has. *)
Theorem shown_preset_is_the_page_size :
  forall ps,
    (exists p,
        PageSizeControls.handlePresetChange (PageSizeControls.currentPreset ps)
        = Some p /\
        PageSizeControls.same_size p ps = true) \/
    (PageSizeControls.currentPreset ps = "custom"%string /\
     forall name p,
       In (name, p) PageSizeControls.PAGE_PRESETS ->
       PageSizeControls.same_size p ps = false).
Proof.
  intros ps. unfold PageSizeControls.currentPreset.
  destruct (find (fun entry => PageSizeControls.same_size (snd entry) ps)
                 PageSizeControls.PAGE_PRESETS) as [[name p]|] eqn:E.
  - left. apply find_some in E as [Hin Hs]. exists p. split; [|exact Hs].
    simpl in Hin.
    repeat (destruct Hin as [Hin|Hin]; [inversion Hin; subst; reflexivity|]).
    contradiction.
  - right. split; [reflexivity|]. intros name p Hin.
    exact (find_none _ _ E (name, p) Hin).
Qed.

(** X20: an export that fails before its loop calls nothing.  When the
    iframe's content is missing, the imports fail, or no page element is
    found, the export settles with null and neither html2canvas nor the
    callback has been called. *)
Theorem early_failures_call_nothing :
  forall {Element Canvas : Type} (W : @World Element Canvas) (A : HookArgs) st,
    (iframe_body (iframeRef A) = Normal None \/
     (exists bd e, iframe_body (iframeRef A) = Normal (Some bd) /\
                   import_modules W = Throw e) \/
     (exists bd, iframe_body (iframeRef A) = Normal (Some bd) /\ pageElements bd = [])) ->
    fst (exportPdf W A st) = Normal None /\
    exists fuel,
      invoke_logged W A fuel st
      = (Settled (Normal None), snd (exportPdf W A st), []).
Proof.
  intros Element Canvas W A st H.
  destruct (iframe_body (iframeRef A)) as [[bd|]|blocked] eqn:Hb.
  - assert (Hcase : (exists e, import_modules W = Throw e) \/ pageElements bd = []).
    { destruct H as [H|[(bd' & e & _ & He)|(bd' & Hb' & Hp)]];
        [discriminate|left; now exists e|].
      right. congruence. }
    destruct (import_modules W) as [u|e] eqn:Hi.
    + destruct Hcase as [(e & He)|Hp]; [discriminate|].
      rewrite (exportPdf_no_pages W A st bd u Hb Hi Hp).
      split; [reflexivity|]. exists 1.
      rewrite invoke_logged_step. unfold start. rewrite Hb.
      unfold logged_step. rewrite run_logged_resume by reflexivity.
      cbn [resume]. rewrite Hi, Hp. reflexivity.
    + rewrite (exportPdf_import_fails W A st bd e Hb Hi).
      split; [reflexivity|]. exists 1.
      rewrite invoke_logged_step. unfold start. rewrite Hb.
      unfold logged_step. rewrite run_logged_resume by reflexivity.
      cbn [resume]. rewrite Hi. now destruct e.
  - rewrite (exportPdf_inaccessible W A st Hb).
    split; [reflexivity|]. exists 0.
    rewrite invoke_logged_step. unfold start. rewrite Hb. reflexivity.
  - destruct H as [H|[(bd & e & H & _)|(bd & H & _)]]; discriminate.
Qed.

(** On an unmounted iframe and on an empty surface. *)
Lemma early_failures_call_nothing_witness :
  (exists fuel,
      invoke_logged Demo.world Demo.args_unmounted fuel initial
      = (Settled (Normal None), failed "Cannot access iframe content", [])) /\
  (exists fuel,
      invoke_logged Demo.world
                    {| iframeRef := Demo.iframe_with [];
                       options := Demo.export_options; onExport := None |}
                    fuel initial
      = (Settled (Normal None), failed "No pages found in document", [])).
Proof.
  split.
  - refine (proj2 (@early_failures_call_nothing
                     nat nat Demo.world Demo.args_unmounted initial _)).
    left. reflexivity.
  - refine (proj2 (@early_failures_call_nothing
                     nat nat Demo.world
                     {| iframeRef := Demo.iframe_with [];
                        options := Demo.export_options; onExport := None |}
                     initial _)).
    right. right. exists {| pageElements := [] |}. split; reflexivity.
Defined.

(** ** Joining documents *)

Section Joining.

(** What comes before a text that does not start with the token has no
    say in how the text is scanned. *)
Lemma split_loop_prev_irrelevant p p' cur s :
  (forall y, s <> PAGE_TOKEN ++ y) ->
  split_loop p cur s = split_loop p' cur s.
Proof.
  intros Hs. destruct s as [|c r]; [now rewrite !split_loop_nil|].
  rewrite !split_loop_cons.
  assert (H : forall q, PAGE_DELIMITER_REGEX q (c :: r) = match_form_feed (c :: r)).
  { intros q. unfold PAGE_DELIMITER_REGEX, match_token_line.
    destruct (line_start q); [|reflexivity].
    destruct (strip_prefix PAGE_TOKEN (c :: r)) as [after|] eqn:E; [|reflexivity].
    exfalso. apply strip_prefix_app in E. now apply (Hs after). }
  rewrite (H p), (H p').
  unfold match_form_feed. destruct (c =? FF)%N; reflexivity.
Qed.

Lemma filter_twice {X} (f : X -> bool) (l : list X) :
  filter f (filter f l) = filter f l.
Proof.
  induction l as [|x l IH]; simpl; [reflexivity|].
  destruct (f x) eqn:Hx; simpl; rewrite ?Hx, IH; reflexivity.
Qed.

Lemma filter_has_content_pages s :
  filter has_content (splitByPageDelimiters s)
  = filter has_content (split_regex (replace_crlf s)).
Proof.
  destruct (split_regex (replace_crlf s)) as [|first rest] eqn:E.
  - now apply split_regex_nonempty in E.
  - rewrite (splitByPageDelimiters_filter s first rest E). simpl.
    rewrite filter_twice. reflexivity.
Qed.

End Joining.

(** X21: joining two documents with a form feed joins their pages.  If
    the first (normalized) does not end with the token and the second
    does not start with it, the pages of [a ++ "\f" ++ b] are the pages
    of [a] followed by the pages of [b] that have content. *)
Theorem form_feed_joins_documents :
  forall a b,
    (forall x, replace_crlf a <> x ++ PAGE_TOKEN) ->
    (forall y, replace_crlf b <> PAGE_TOKEN ++ y) ->
    splitByPageDelimiters (a ++ FF :: b)
    = splitByPageDelimiters a ++ filter has_content (splitByPageDelimiters b).
Proof.
  intros a b Ha Hb.
  destruct (split_regex (replace_crlf a)) as [|first rest] eqn:E.
  { now apply split_regex_nonempty in E. }
  rewrite (splitByPageDelimiters_filter a first rest E).
  rewrite filter_has_content_pages.
  rewrite (splitByPageDelimiters_filter
             (a ++ FF :: b) first (rest ++ split_regex (replace_crlf b))).
  - now rewrite filter_app.
  - rewrite replace_crlf_seam by discriminate.
    rewrite (replace_crlf_cons FF b) by discriminate.
    unfold split_regex in *.
    rewrite (split_loop_before_form_feed (replace_crlf a) None []
                                         (replace_crlf b) Ha), E.
    now rewrite (split_loop_prev_irrelevant (Some FF) None [] (replace_crlf b) Hb).
Qed.

Lemma form_feed_joins_documents_witness :
  splitByPageDelimiters ((lit "A" ++ [FF] ++ lit "B") ++ FF :: ([LF] ++ [FF] ++ lit "C"))
  = splitByPageDelimiters (lit "A" ++ [FF] ++ lit "B") ++
    filter has_content (splitByPageDelimiters ([LF] ++ [FF] ++ lit "C")).
Proof.
  apply (form_feed_joins_documents (lit "A" ++ [FF] ++ lit "B")
                                   ([LF] ++ [FF] ++ lit "C")).
  - intros x H.
    assert (Hlen : length (replace_crlf (lit "A" ++ [FF] ++ lit "B"))
                   = length (x ++ PAGE_TOKEN)) by now rewrite H.
    rewrite length_app in Hlen.
    change (length PAGE_TOKEN) with 10 in Hlen.
    change (length (replace_crlf (lit "A" ++ [FF] ++ lit "B"))) with 3 in Hlen.
    lia.
  - intros y H. discriminate H.
Defined.
